(** * NanoVNASaver.RFTools: a shallow embedding and its specification

    The module computes RF quantities from reflection-coefficient samples
    ([Datapoint]), stores multi-field samples by frequency ([DataSet]) and
    offers closed-form transforms (gamma to impedance, serial to parallel,
    group delay, attenuation correction).

    Number model.  A Python [int] is a [Z].  A finite Python [float] is read
    as the real number it denotes, and [+], [-], [*], [/], [**], [abs],
    [cmath.phase] as the exact operations on [R]: rounding, overflow and
    underflow of binary64 are not part of this reading.  The infinities the
    code builds with [math.inf] are explicit constructors ([PInf], [NInf]).
    Python's [/] raises [ZeroDivisionError] on a zero divisor; this is kept,
    as the code both relies on it ([gamma_to_impedance]) and guards against
    it.  Where a statement is about rounding itself, the functions concerned
    are embedded a second time on IEEE binary64 ([Module Binary64]). *)

From Stdlib Require Import ZArith List Bool String Lia Reals Lra.
From Stdlib Require Floats.
From stdpp Require Import base option list gmap sorting.

(** ** Exceptions and results *)

Inductive exn : Set :=
| ZeroDivisionError
| AssertionError
| IndexError
| KeyError.

Inductive res (A : Type) : Type :=
| Ok (a : A)
| Raise (e : exn).
Arguments Ok {A} a.
Arguments Raise {A} e.

#[global] Instance res_ret : MRet res := fun A a => Ok a.
#[global] Instance res_bind : MBind res := fun A B k r =>
  match r with
  | Ok a => k a
  | Raise e => Raise e
  end.

(** ** Numbers *)

(** A float the code returns: finite, [math.inf] or [-math.inf]. *)
Inductive xfloat : Type :=
| Fin (x : R)
| PInf
| NInf.

(** A finite Python [complex]. *)
Record complex : Type := Complex { real : R; imag : R }.

(** The values the functions below return: an [int] literal, a float or a
    complex number (whose parts may be infinite). *)
Inductive value : Type :=
| VInt (n : Z)
| VFloat (x : xfloat)
| VComplex (re im : xfloat).

Definition of_complex (c : complex) : value :=
  VComplex (Fin (real c)) (Fin (imag c)).

Section Arithmetic.
Local Open Scope R_scope.

(** [x == y], [x < y] and [x <= y] on floats. *)
Definition float_eqb (x y : R) : bool := if Req_dec_T x y then true else false.
Definition float_ltb (x y : R) : bool := if Rlt_dec x y then true else false.
Definition float_leb (x y : R) : bool := if Rle_dec x y then true else false.

(** [x / y] on floats. *)
Definition float_div (x y : R) : res R :=
  if float_eqb y 0 then Raise ZeroDivisionError else Ok (x / y).

(** [a / b] on ints (true division). *)
Definition int_truediv (a b : Z) : res R :=
  if Z.eq_dec b 0%Z then Raise ZeroDivisionError else Ok (IZR a / IZR b).

(** [b ** e] for a positive base. *)
Definition float_pow (b e : R) : R := Rpower b e.

(** An int or float operand coerced to complex. *)
Definition of_real (x : R) : complex := Complex x 0.

Definition c_neg (a : complex) : complex :=
  Complex (- real a) (- imag a).

Definition c_sub (a b : complex) : complex :=
  Complex (real a - real b) (imag a - imag b).

Definition c_mul (a b : complex) : complex :=
  Complex (real a * real b - imag a * imag b)
          (real a * imag b + imag a * real b).

(** [a == b] on complex numbers. *)
Definition c_eqb (a b : complex) : bool :=
  float_eqb (real a) (real b) && float_eqb (imag a) (imag b).

(** [a / b] on complex numbers; the quotient is [a * conj b / |b|^2]. *)
Definition c_div (a b : complex) : res complex :=
  if c_eqb b (Complex 0 0) then Raise ZeroDivisionError
  else
    let d := real b * real b + imag b * imag b in
    Ok (Complex ((real a * real b + imag a * imag b) / d)
                ((imag a * real b - real a * imag b) / d)).

(** [abs(z)] *)
Definition c_abs (a : complex) : R :=
  sqrt (real a * real a + imag a * imag a).

(** [math.atan2(y, x)], the principal argument in (-pi, pi]. *)
Definition atan2 (y x : R) : R :=
  if float_ltb 0 x then atan (y / x)
  else if float_ltb x 0 then
    if float_leb 0 y then atan (y / x) + PI else atan (y / x) - PI
  else if float_ltb 0 y then PI / 2
  else if float_ltb y 0 then - (PI / 2)
  else 0.

(** [cmath.phase(z)] *)
Definition c_phase (a : complex) : R := atan2 (imag a) (real a).

(** [math.tau] *)
Definition tau : R := 2 * PI.

(** [math.copysign(math.inf, x)] *)
Definition copysign_inf (x : R) : xfloat :=
  if float_leb 0 x then PInf else NInf.
End Arithmetic.

(** ** Transform functions *)

Section Transforms.
Local Open Scope R_scope.

(** The quotient times [ref_impedance], or [math.inf] when the division
    raises [ZeroDivisionError]. *)
Definition gamma_to_impedance (gamma : complex) (ref_impedance : R) : res value :=
  match c_div (c_sub (c_neg gamma) (of_real 1)) (c_sub gamma (of_real 1)) with
  | Ok q => Ok (of_complex (c_mul q (of_real ref_impedance)))
  | Raise ZeroDivisionError => Ok (VFloat PInf)
  | Raise e => Raise e
  end.

Definition impedance_to_capacitance (z : complex) (freq : R) : res xfloat :=
  if float_eqb freq 0 then Ok NInf
  else if float_eqb (imag z) 0 then Ok PInf
  else r ← float_div 1 (freq * 2 * PI * imag z); Ok (Fin (- r)).

Definition impedance_to_inductance (z : complex) (freq : R) : res value :=
  if float_eqb freq 0 then Ok (VInt 0)
  else r ← float_div (imag z * 1) (freq * 2 * PI); Ok (VFloat (Fin r)).

Definition impedance_to_norm (z : complex) (ref_impedance : R) : res complex :=
  c_div z (of_real ref_impedance).

Definition norm_to_impedance (z : complex) (ref_impedance : R) : complex :=
  c_mul z (of_real ref_impedance).

Definition serial_to_parallel (z : complex) : res value :=
  let z_sq_sum := real z ^ 2 + imag z ^ 2 in
  if float_eqb (real z) 0 && float_eqb (imag z) 0 then
    Ok (VComplex PInf PInf)
  else if float_eqb (imag z) 0 then
    r ← float_div z_sq_sum (real z);
    Ok (VComplex (Fin r) (copysign_inf z_sq_sum))
  else if float_eqb (real z) 0 then
    i ← float_div z_sq_sum (imag z);
    Ok (VComplex (copysign_inf z_sq_sum) (Fin i))
  else
    r ← float_div z_sq_sum (real z);
    i ← float_div z_sq_sum (imag z);
    Ok (VComplex (Fin r) (Fin i)).
End Transforms.

(** ** Datapoint *)

Module Datapoint.
Local Open Scope R_scope.

Record t : Type := mk { freq : Z; re : R; im : R }.

Definition z (self : t) : complex := Complex (re self) (im self).

Definition phase (self : t) : R := c_phase (z self).

Definition gain (self : t) : xfloat :=
  let mag := c_abs (z self) in
  if float_ltb 0 mag then Fin (20 * (ln mag / ln 10)) else NInf.

Definition vswr (self : t) : res value :=
  let mag := c_abs (z self) in
  if float_eqb mag 1 then Ok (VInt 1)
  else r ← float_div (1 + mag) (1 - mag); Ok (VFloat (Fin r)).

Definition wavelength (self : t) : res xfloat :=
  r ← int_truediv 299792458 (freq self); Ok (Fin r).

Definition impedance (self : t) (ref_impedance : R) : res value :=
  gamma_to_impedance (z self) ref_impedance.
End Datapoint.

(** ** Functions on sample lists *)

(** Modelled from the spec: [clamp_value] of [NanoVNASaver.SITools], which
    the source imports and which is not part of it; it clamps [value] into
    the range from [rmin] to [rmax]. *)
Definition clamp_value (value rmin rmax : Z) : Z :=
  if (value <? rmin)%Z then rmin
  else if (rmax <? value)%Z then rmax
  else value.

(** [l[i]] on a Python list: a negative index counts from the end, an index
    outside the list raises [IndexError]. *)
Definition list_get {A : Type} (l : list A) (i : Z) : res A :=
  let n := Z.of_nat (length l) in
  let j := if (i <? 0)%Z then (i + n)%Z else i in
  if (0 <=? j)%Z && (j <? n)%Z then
    match l !! Z.to_nat j with
    | Some a => Ok a
    | None => Raise IndexError
    end
  else Raise IndexError.

Section Lists.
Local Open Scope R_scope.

Definition groupDelay (data : list Datapoint.t) (index : Z) : res value :=
  let idx0 := clamp_value (index - 1) 0 (Z.of_nat (length data) - 1) in
  let idx1 := clamp_value (index + 1) 0 (Z.of_nat (length data) - 1) in
  d1 ← list_get data idx1;
  d0 ← list_get data idx0;
  let delta_angle := Datapoint.phase d1 - Datapoint.phase d0 in
  let delta_freq := (Datapoint.freq d1 - Datapoint.freq d0)%Z in
  if (delta_freq =? 0)%Z then Ok (VInt 0)
  else
    q ← float_div (- delta_angle) tau;
    val ← float_div q (IZR delta_freq);
    Ok (VFloat (Fin val)).

Definition corr_att_data (data : list Datapoint.t) (att : R) : list Datapoint.t :=
  if float_leb att 0 then data
  else
    let att := float_pow 10 (att / 20) in
    map (fun dp =>
           let corrected := c_mul (Datapoint.z dp) (of_real att) in
           Datapoint.mk (Datapoint.freq dp) (real corrected) (imag corrected))
        data.

(** The estimate as the spec words it, for the samples at the two clamped
    indices: [0] when they share a frequency, else minus the phase
    difference over [2 pi] times the frequency difference. *)
Definition delay_between (lo hi : Datapoint.t) : value :=
  if (Datapoint.freq hi =? Datapoint.freq lo)%Z then VInt 0
  else VFloat (Fin (- (Datapoint.phase hi - Datapoint.phase lo)
                    / (2 * PI * IZR (Datapoint.freq hi - Datapoint.freq lo)))).
End Lists.

(** ** DataSet *)

Module DataSet.
Local Open Scope R_scope.

(** Modelled from the spec: [scipy.interpolate.interp1d], a third-party
    class the source calls with [kind="slinear"], [bounds_error=False] and
    [fill_value=(first, last)].  An interpolator is the record of the
    arguments it was built from; [call] evaluates it: piecewise linear
    between consecutive samples, the fill values outside the sampled
    range.  The argument checks of scipy itself are outside the model. *)
Record interp1d : Type :=
  Interp1d { xs : list Z; ys : list R; fill_lo : R; fill_hi : R }.

Fixpoint segments (pts : list (Z * R)) (x : R) : option R :=
  match pts with
  | (x0, y0) :: (((x1, y1) :: _) as rest) =>
      if float_leb x (IZR x1)
      then Some (y0 + (x - IZR x0) * ((y1 - y0) / (IZR x1 - IZR x0)))
      else segments rest x
  | _ => None
  end.

Definition call (f : interp1d) (x : R) : R :=
  match xs f with
  | [] => fill_lo f
  | x0 :: _ =>
      if float_ltb x (IZR x0) then fill_lo f
      else match segments (zip (xs f) (ys f)) x with
           | Some y => y
           | None => fill_hi f
           end
  end.

Record t : Type := mk {
  fields : list string;
  data : gmap Z (list complex);
  interp : list (interp1d * interp1d);
  inter_valid : bool
}.

(** [DataSet(fields)] *)
Definition init (fields : list string) : t := mk fields ∅ [] false.

Definition default_fields : list string := ["11"%string; "21"%string].

(** A method runs on the object, and may raise after having changed it. *)
Definition M (A : Type) : Type := t -> res A * t.

#[global] Instance M_ret : MRet M := fun A a self => (Ok a, self).
#[global] Instance M_bind : MBind M := fun A B k m self =>
  match m self with
  | (Ok a, self') => k a self'
  | (Raise e, self') => (Raise e, self')
  end.

Definition get : M t := fun self => (Ok self, self).

Definition lift {A : Type} (r : res A) : M A := fun self => (r, self).

Definition py_assert (b : bool) : M unit :=
  lift (if b then Ok tt else Raise AssertionError).

Definition set_data (d : gmap Z (list complex)) : M unit :=
  fun self => (Ok tt, mk (fields self) d (interp self) (inter_valid self)).

Definition set_inter_valid (b : bool) : M unit :=
  fun self => (Ok tt, mk (fields self) (data self) (interp self) b).

(** [self.interp.append(p)] *)
Definition interp_append (p : interp1d * interp1d) : M unit :=
  fun self => (Ok tt, mk (fields self) (data self) (interp self ++ [p]) (inter_valid self)).

Fixpoint for_each {A : Type} (l : list A) (body : A -> M unit) : M unit :=
  match l with
  | [] => mret tt
  | a :: l' => body a;; for_each l' body
  end.

Fixpoint traverse {A B : Type} (f : A -> res B) (l : list A) : res (list B) :=
  match l with
  | [] => Ok []
  | a :: l' => b ← f a; bs ← traverse f l'; Ok (b :: bs)
  end.

Definition copy (self : t) : t := mk (fields self) (data self) [] false.

Definition insert (datapoints : list Datapoint.t) : M unit :=
  self ← get;
  py_assert (length datapoints =? length (fields self))%nat;;
  py_assert (size (list_to_set (Datapoint.freq <$> datapoints) : gset Z) =? 1)%nat;;
  dp0 ← lift (list_get datapoints 0);
  let frequency := Datapoint.freq dp0 in
  set_data (<[frequency := Datapoint.z <$> datapoints]> (data self));;
  set_inter_valid false.

Definition insert_complex (frequency : Z) (values : list complex) : M unit :=
  self ← get;
  py_assert (length values =? length (fields self))%nat;;
  set_data (<[frequency := values]> (data self));;
  set_inter_valid false.

(** [d[k]] on a dict. *)
Definition dict_get {V : Type} (d : gmap Z V) (k : Z) : res V :=
  match d !! k with
  | Some v => Ok v
  | None => Raise KeyError
  end.

(** [sorted(self.data.keys())] *)
Definition sorted_keys (self : t) : list Z :=
  merge_sort Z.le (fst <$> map_to_list (data self)).

(** The list the generator [items_complex] yields. *)
Definition items_complex (self : t) : res (list (Z * list complex)) :=
  traverse (fun freq => v ← dict_get (data self) freq; Ok (freq, v))
           (sorted_keys self).

(** One round of the loop of [gen_interpolation], for field number [i]. *)
Definition gen_field (i : nat) : M unit :=
  self ← get;
  items ← lift (items_complex self);
  let freqs := fst <$> items in
  col ← lift (traverse (fun it => list_get it.2 (Z.of_nat i)) items);
  let reals := real <$> col in
  let imags := imag <$> col in
  r0 ← lift (list_get reals 0);
  r1 ← lift (list_get reals (-1));
  i0 ← lift (list_get imags 0);
  i1 ← lift (list_get imags (-1));
  interp_append (Interp1d freqs reals r0 r1, Interp1d freqs imags i0 i1).

Definition gen_interpolation : M unit :=
  self ← get;
  for_each (seq 0 (length (fields self))) gen_field;;
  set_inter_valid true.

Definition freq (freq : Z) : M (list Datapoint.t) :=
  self ← get;
  (if negb (inter_valid self) then gen_interpolation else mret tt);;
  self ← get;
  mret ((fun i => Datapoint.mk freq (call i.1 (IZR freq)) (call i.2 (IZR freq)))
          <$> interp self).

(** The invariant of the spec: every entry of [data] has one value per
    field. *)
Definition well_formed (self : t) : Prop :=
  map_Forall (fun _ values => length values = length (fields self)) (data self).

(** What the interpolation methods leave untouched. *)
Definition same_store (self self' : t) : Prop :=
  fields self' = fields self /\ data self' = data self.

(** The datapoints share one frequency: there is at least one, and all have
    its frequency. *)
Definition share_one_freq (datapoints : list Datapoint.t) : Prop :=
  exists f, datapoints <> [] /\ Forall (fun dp => Datapoint.freq dp = f) datapoints.

(** The objects a caller can obtain from [DataSet(fields)] through the
    methods above, whether a call returns or raises. *)
Inductive reachable (fs : list string) : t -> Prop :=
| reach_init : reachable fs (init fs)
| reach_copy self : reachable fs self -> reachable fs (copy self)
| reach_insert self dps :
    reachable fs self -> reachable fs (insert dps self).2
| reach_insert_complex self f values :
    reachable fs self -> reachable fs (insert_complex f values self).2
| reach_gen_interpolation self :
    reachable fs self -> reachable fs (gen_interpolation self).2
| reach_freq self f :
    reachable fs self -> reachable fs (freq f self).2.

(** The cache invalidation test of the spec on two fields: samples at two
    frequencies, a read at the first frequency, the same frequencies
    inserted again with other values, a second read. *)
Definition sample (f : Z) (a b : R) : list Datapoint.t :=
  [Datapoint.mk f a 0; Datapoint.mk f 0 b].

Definition invalidation_test : M (list Datapoint.t) :=
  insert (sample 1000000 1 1);;
  insert (sample 2000000 3 3);;
  freq 1000000;;
  insert (sample 1000000 2 2);;
  insert (sample 2000000 4 4);;
  freq 1000000.
End DataSet.

(** ** The normalisation pair on IEEE binary64

    CPython coerces the float [ref_impedance] to a complex number with a zero
    imaginary part and then multiplies ([_Py_c_prod]) or divides
    ([_Py_c_quot]) the two complex numbers part by part in binary64. *)

Module Binary64.
Import PrimFloat.
Local Open Scope float_scope.

Record complex : Type := Complex { real : float; imag : float }.

Definition of_float (x : float) : complex := Complex x 0.

Definition c_eqb (a b : complex) : bool :=
  (real a =? real b) && (imag a =? imag b).

Definition c_prod (a b : complex) : complex :=
  Complex (real a * real b - imag a * imag b)
          (real a * imag b + imag a * real b).

Definition c_quot (a b : complex) : res complex :=
  let abs_breal := if real b <? 0 then - real b else real b in
  let abs_bimag := if imag b <? 0 then - imag b else imag b in
  if abs_bimag <=? abs_breal then
    if abs_breal =? 0 then Raise ZeroDivisionError
    else
      let ratio := imag b / real b in
      let denom := real b + imag b * ratio in
      Ok (Complex ((real a + imag a * ratio) / denom)
                  ((imag a - real a * ratio) / denom))
  else if abs_breal <=? abs_bimag then
    let ratio := real b / imag b in
    let denom := real b * ratio + imag b in
    Ok (Complex ((real a * ratio + imag a) / denom)
                ((imag a * ratio - real a) / denom))
  else Ok (Complex nan nan).

Definition impedance_to_norm (z : complex) (ref_impedance : float) : res complex :=
  c_quot z (of_float ref_impedance).

Definition norm_to_impedance (z : complex) (ref_impedance : float) : complex :=
  c_prod z (of_float ref_impedance).

(** [0.35000000000000003+0j]; its real part is [0.01 * 35] in binary64. *)
Definition sample : complex := Complex 0x1.6666666666667p-2 0.

(** The default [ref_impedance]. *)
Definition default_ref : float := 50.
End Binary64.

(** * The rest of the module

    The functions and methods of [RFTools] that the sections above do not
    use, embedded on the same number model. *)

(** ** Further transform functions *)

Section MoreTransforms.
Local Open Scope R_scope.

Definition c_add (a b : complex) : complex :=
  Complex (real a + real b) (imag a + imag b).

Definition parallel_to_serial (z : complex) : res complex :=
  let z_sq_sum := real z ^ 2 + imag z ^ 2 in
  r ← float_div (real z * imag z ^ 2) z_sq_sum;
  i ← float_div (real z ^ 2 * imag z) z_sq_sum;
  Ok (Complex r i).

Definition reflection_coefficient (z : complex) (ref_impedance : R) : res complex :=
  c_div (c_sub z (of_real ref_impedance)) (c_add z (of_real ref_impedance)).
End MoreTransforms.

(** ** Further Datapoint methods *)

(** A result that may also be nan. *)
Inductive nan_or (A : Type) : Type :=
| Num (a : A)
| NaN.
Arguments Num {A} a.
Arguments NaN {A}.

Section MoreDatapoint.
Local Open Scope R_scope.

(** [v.real] and [v.imag] of a number. *)
Definition value_real (v : value) : xfloat :=
  match v with
  | VInt n => Fin (IZR n)
  | VFloat x => x
  | VComplex re _ => re
  end.

Definition value_imag (v : value) : xfloat :=
  match v with
  | VInt _ | VFloat _ => Fin 0
  | VComplex _ im => im
  end.

(** [x == 0.0] *)
Definition xfloat_is_zero (x : xfloat) : bool :=
  match x with
  | Fin r => float_eqb r 0
  | PInf | NInf => false
  end.

(** [x / y] on floats that may be infinite. *)
Definition xfloat_div (x y : xfloat) : res (nan_or xfloat) :=
  match x, y with
  | Fin a, Fin b => r ← float_div a b; Ok (Num (Fin r))
  | Fin _, (PInf | NInf) => Ok (Num (Fin 0))
  | PInf, Fin b =>
      if float_eqb b 0 then Raise ZeroDivisionError
      else Ok (Num (if float_ltb b 0 then NInf else PInf))
  | NInf, Fin b =>
      if float_eqb b 0 then Raise ZeroDivisionError
      else Ok (Num (if float_ltb b 0 then PInf else NInf))
  | (PInf | NInf), (PInf | NInf) => Ok NaN
  end.

(** [abs(x)] *)
Definition xfloat_abs (x : xfloat) : xfloat :=
  match x with
  | Fin r => Fin (Rabs r)
  | PInf | NInf => PInf
  end.

Definition qFactor (self : Datapoint.t) (ref_impedance : R) : res (nan_or value) :=
  imp ← Datapoint.impedance self ref_impedance;
  if xfloat_is_zero (value_real imp) then Ok (Num (VInt (-1)))
  else
    q ← xfloat_div (value_imag imp) (value_real imp);
    Ok (match q with
        | Num x => Num (VFloat (xfloat_abs x))
        | NaN => NaN
        end).
End MoreDatapoint.

(** ** Further DataSet methods *)

(** [list.index], [min] and [max] raise [ValueError]; the methods that use
    them raise it besides the exceptions above. *)
Inductive error : Set :=
| Exn (e : exn)
| ValueError.

Inductive result (A : Type) : Type :=
| Return (a : A)
| Fail (e : error).
Arguments Return {A} a.
Arguments Fail {A} e.

Definition of_res {A : Type} (r : res A) : result A :=
  match r with
  | Ok a => Return a
  | Raise e => Fail (Exn e)
  end.

(** [l.index(x)]: the position of the first [x], [None] for [ValueError]. *)
Fixpoint index_of (x : string) (l : list string) : option nat :=
  match l with
  | [] => None
  | y :: l' => if String.eqb y x then Some 0%nat else S <$> index_of x l'
  end.

(** [min(l)] and [max(l)] *)
Definition py_min (l : list Z) : result Z :=
  match l with
  | [] => Fail ValueError
  | x :: l' => Return (foldl Z.min x l')
  end.

Definition py_max (l : list Z) : result Z :=
  match l with
  | [] => Fail ValueError
  | x :: l' => Return (foldl Z.max x l')
  end.

Module DataSetQueries.
Import DataSet.
Local Open Scope R_scope.

(** [Datapoint(freq, z.real, z.imag)] *)
Definition datapoint_of (freq : Z) (z : complex) : Datapoint.t :=
  Datapoint.mk freq (real z) (imag z).

(** The list the generator [items] yields. *)
Definition items (self : t) : res (list (list Datapoint.t)) :=
  traverse (fun freq => v ← dict_get (data self) freq;
                        Ok (datapoint_of freq <$> (v : list complex)))
           (sorted_keys self).

(** The list the generator [items_field] yields. *)
Definition items_field (field : string) (self : t) : result (list Datapoint.t) :=
  match index_of field (fields self) with
  | None => Fail ValueError
  | Some i =>
      of_res (traverse (fun freq =>
                          v ← dict_get (data self) freq;
                          z ← list_get (v : list complex) (Z.of_nat i);
                          Ok (datapoint_of freq z))
                       (sorted_keys self))
  end.

(** [self.data.keys()] *)
Definition keys (self : t) : list Z := fst <$> map_to_list (data self).

Definition min_freq (self : t) : result Z := py_min (keys self).

Definition max_freq (self : t) : result Z := py_max (keys self).

(** [if not self.inter_valid: self.gen_interpolation()] *)
Definition ensure_interpolation : M unit :=
  self ← get;
  if negb (inter_valid self) then gen_interpolation else mret tt.

Definition freq_complex (freq : Z) : M (list complex) :=
  ensure_interpolation;;
  self ← get;
  mret ((fun i => Complex (call i.1 (IZR freq)) (call i.2 (IZR freq))) <$> interp self).

(** [self.interp[self.fields.index(field)]] *)
Definition field_interp (field : string) (self : t) : result (interp1d * interp1d) :=
  match index_of field (fields self) with
  | None => Fail ValueError
  | Some n => of_res (list_get (interp self) (Z.of_nat n))
  end.

Definition freq_field (freq : Z) (field : string) (self : t)
  : result Datapoint.t * t :=
  match ensure_interpolation self with
  | (Raise e, self') => (Fail (Exn e), self')
  | (Ok _, self') =>
      match field_interp field self' with
      | Fail e => (Fail e, self')
      | Return i =>
          (Return (Datapoint.mk freq (call i.1 (IZR freq)) (call i.2 (IZR freq))), self')
      end
  end.

Definition freq_field_complex (freq : Z) (field : string) (self : t)
  : result complex * t :=
  match ensure_interpolation self with
  | (Raise e, self') => (Fail (Exn e), self')
  | (Ok _, self') =>
      match field_interp field self' with
      | Fail e => (Fail e, self')
      | Return i =>
          (Return (Complex (call i.1 (IZR freq)) (call i.2 (IZR freq))), self')
      end
  end.

(** What [gen_interpolation] builds for field number [i] from the list
    [items_complex] yields: the columns of frequencies, real parts and
    imaginary parts, with the first and the last value as fill values. *)
Definition built_pair (rows : list (Z * list complex)) (i : nat) : interp1d * interp1d :=
  let col := (fun it => default (Complex 0 0) (it.2 !! i)) <$> rows in
  let reals := real <$> col in
  let imags := imag <$> col in
  (Interp1d (fst <$> rows) reals (default 0 (head reals)) (default 0 (last reals)),
   Interp1d (fst <$> rows) imags (default 0 (head imags)) (default 0 (last imags))).

(** The Datapoints a read at [freq] makes of the cached interpolators. *)
Definition read (freq : Z) (cache : list (interp1d * interp1d)) : list Datapoint.t :=
  (fun i => Datapoint.mk freq (call i.1 (IZR freq)) (call i.2 (IZR freq))) <$> cache.

(** The rows [items_complex] yields, as a function of [data]. *)
Definition rows_of (self : t) : list (Z * list complex) :=
  (fun f => (f, data self !!! f)) <$> sorted_keys self.

(** A DataSet of two entries that was read once and then updated at one of
    its frequencies: its cache holds the pairs of the first build and is
    not valid. *)
Definition updated_after_read : t :=
  (insert (sample 1 2 2)
     (freq 1 (insert (sample 2 3 3) (insert (sample 1 1 1) (init default_fields)).2).2).2).2.

(** The cache a successful [gen_interpolation] leaves on an object whose
    cache was empty. *)
Definition fresh_cache (self : t) : list (interp1d * interp1d) :=
  built_pair (rows_of self) <$> seq 0 (length (fields self)).
End DataSetQueries.

(** * Properties *)

(** ** Comparisons and division *)

Section ArithmeticFacts.
Local Open Scope R_scope.

Lemma float_eqb_eq (x y : R) : float_eqb x y = true <-> x = y.
Proof. unfold float_eqb. destruct (Req_dec_T x y); split; congruence. Qed.

Lemma float_eqb_neq (x y : R) : float_eqb x y = false <-> x <> y.
Proof. unfold float_eqb. destruct (Req_dec_T x y); split; congruence. Qed.

Lemma float_ltb_lt (x y : R) : float_ltb x y = true <-> x < y.
Proof. unfold float_ltb. destruct (Rlt_dec x y); split; congruence. Qed.

Lemma float_ltb_ge (x y : R) : float_ltb x y = false <-> y <= x.
Proof. unfold float_ltb. destruct (Rlt_dec x y); split; (congruence || lra). Qed.

Lemma float_leb_le (x y : R) : float_leb x y = true <-> x <= y.
Proof. unfold float_leb. destruct (Rle_dec x y); split; congruence. Qed.

Lemma float_leb_gt (x y : R) : float_leb x y = false <-> y < x.
Proof. unfold float_leb. destruct (Rle_dec x y); split; (congruence || lra). Qed.

Lemma float_eqb_refl (x : R) : float_eqb x x = true.
Proof. by apply float_eqb_eq. Qed.

Lemma float_div_ok (x y : R) : y <> 0 -> float_div x y = Ok (x / y).
Proof. intros Hy. unfold float_div. by apply float_eqb_neq in Hy as ->. Qed.

Lemma c_eqb_eq (a b : complex) : c_eqb a b = true <-> a = b.
Proof.
  destruct a as [ar ai], b as [br bi]. unfold c_eqb. simpl.
  rewrite andb_true_iff, !float_eqb_eq. split.
  - by intros [-> ->].
  - by intros [= -> ->].
Qed.

Lemma c_eqb_neq (a b : complex) : c_eqb a b = false <-> a <> b.
Proof.
  rewrite <- not_true_iff_false, c_eqb_eq. tauto.
Qed.

Lemma c_div_zero (a : complex) : c_div a (Complex 0 0) = Raise ZeroDivisionError.
Proof. unfold c_div. by rewrite (proj2 (c_eqb_eq _ _) eq_refl). Qed.

Lemma c_div_ok (a b : complex) :
  b <> Complex 0 0 ->
  c_div a b =
    Ok (Complex ((real a * real b + imag a * imag b) / (real b * real b + imag b * imag b))
                ((imag a * real b - real a * imag b) / (real b * real b + imag b * imag b))).
Proof. intros Hb. unfold c_div. by apply c_eqb_neq in Hb as ->. Qed.

End ArithmeticFacts.

(** ** Datapoint properties *)

Section DatapointFacts.
Local Open Scope R_scope.

(** C2, counterexample: at [freq == 0] the [wavelength] property raises
    [ZeroDivisionError]; it does not return positive infinity. *)
Lemma wavelength_at_zero_raises :
  Datapoint.wavelength (Datapoint.mk 0 0 0) = Raise ZeroDivisionError /\
  Datapoint.wavelength (Datapoint.mk 0 0 0) <> Ok PInf.
Proof. split; [reflexivity | discriminate]. Qed.

(** C2, amended: for a Datapoint with [freq == 0] the [wavelength] property
    raises [ZeroDivisionError]; for [freq > 0] it returns
    [299792458 / freq]. *)
Theorem wavelength_spec (dp : Datapoint.t) :
  (Datapoint.freq dp = 0%Z ->
   Datapoint.wavelength dp = Raise ZeroDivisionError) /\
  ((0 < Datapoint.freq dp)%Z ->
   Datapoint.wavelength dp = Ok (Fin (299792458 / IZR (Datapoint.freq dp)))).
Proof.
  unfold Datapoint.wavelength, int_truediv. split; intros Hf.
  - by rewrite Hf.
  - destruct (Z.eq_dec (Datapoint.freq dp) 0%Z); [lia | reflexivity].
Qed.

Lemma wavelength_spec_witness :
  Datapoint.wavelength (Datapoint.mk 0 1 0) = Raise ZeroDivisionError /\
  Datapoint.wavelength (Datapoint.mk 1000000 1 0) = Ok (Fin (299792458 / 1000000)).
Proof.
  split.
  - apply (proj1 (wavelength_spec (Datapoint.mk 0 1 0))). reflexivity.
  - apply (proj2 (wavelength_spec (Datapoint.mk 1000000 1 0))). simpl. lia.
Defined.

Lemma vswr_unit (dp : Datapoint.t) :
  (c_abs (Datapoint.z dp) = 1 -> Datapoint.vswr dp = Ok (VInt 1)) /\
  (c_abs (Datapoint.z dp) <> 1 ->
   Datapoint.vswr dp =
     Ok (VFloat (Fin ((1 + c_abs (Datapoint.z dp)) / (1 - c_abs (Datapoint.z dp)))))).
Proof.
  unfold Datapoint.vswr. split; intros Hm.
  - by rewrite Hm, float_eqb_refl.
  - apply float_eqb_neq in Hm as Hb. rewrite Hb.
    by rewrite float_div_ok by lra.
Qed.

(** C4: [vswr] returns [1] when [|z| == 1] and [(1+|z|)/(1-|z|)]
    otherwise, never an error; when [|z| > 1] the value returned is
    negative. *)
Theorem vswr_spec (dp : Datapoint.t) :
  let mag := c_abs (Datapoint.z dp) in
  (mag = 1 -> Datapoint.vswr dp = Ok (VInt 1)) /\
  (mag <> 1 -> Datapoint.vswr dp = Ok (VFloat (Fin ((1 + mag) / (1 - mag))))) /\
  (1 < mag -> exists v, Datapoint.vswr dp = Ok (VFloat (Fin v)) /\ v < 0).
Proof.
  intros mag. destruct (vswr_unit dp) as [Heq Hne]. fold mag in Heq, Hne.
  split; [exact Heq |]. split; [exact Hne |].
  intros Hm. eexists. split; [apply Hne; lra |].
  apply Ropp_lt_cancel. rewrite Ropp_0.
  replace (- ((1 + mag) / (1 - mag))) with ((1 + mag) / (mag - 1)) by (field; lra).
  apply Rdiv_lt_0_compat; lra.
Qed.

Lemma vswr_spec_witness :
  exists v, Datapoint.vswr (Datapoint.mk 1000000 2 0) = Ok (VFloat (Fin v)) /\ v < 0.
Proof.
  apply (proj2 (proj2 (vswr_spec (Datapoint.mk 1000000 2 0)))).
  unfold c_abs. simpl. rewrite <- sqrt_1 at 1.
  apply sqrt_lt_1_alt. lra.
Defined.

(** The examples of the spec: a total reflection has [vswr == 1], and no
    reflection at all has a gain of [-inf]. *)
Example vswr_total_reflection :
  Datapoint.vswr (Datapoint.mk 1000000 1 0) = Ok (VInt 1).
Proof.
  apply (proj1 (vswr_unit (Datapoint.mk 1000000 1 0))).
  unfold c_abs. simpl. replace (1 * 1 + 0 * 0) with 1 by ring. apply sqrt_1.
Qed.

Example gain_no_reflection :
  Datapoint.gain (Datapoint.mk 1000000 0 0) = NInf.
Proof.
  unfold Datapoint.gain, c_abs. simpl.
  replace (0 * 0 + 0 * 0) with 0 by ring. rewrite sqrt_0.
  by rewrite (proj2 (float_ltb_ge 0 0)) by lra.
Qed.
End DatapointFacts.

(** ** Transform properties *)

Section TransformFacts.
Local Open Scope R_scope.

Lemma freq_two_pi_neq_0 (f : R) : f <> 0 -> f * 2 * PI <> 0.
Proof.
  intros Hf. pose proof PI_RGT_0 as Hpi.
  apply Rmult_integral_contrapositive_currified; [| lra].
  apply Rmult_integral_contrapositive_currified; [assumption | lra].
Qed.

(** C5: [gamma_to_impedance] never raises; it returns [math.inf] when
    [gamma == 1] and [((-gamma - 1) / (gamma - 1)) * ref_impedance]
    otherwise. *)
Theorem gamma_to_impedance_spec (gamma : complex) (ref_impedance : R) :
  (gamma = Complex 1 0 ->
   gamma_to_impedance gamma ref_impedance = Ok (VFloat PInf)) /\
  (gamma <> Complex 1 0 ->
   exists q,
     c_div (c_sub (c_neg gamma) (of_real 1)) (c_sub gamma (of_real 1)) = Ok q /\
     gamma_to_impedance gamma ref_impedance =
       Ok (of_complex (c_mul q (of_real ref_impedance)))).
Proof.
  unfold gamma_to_impedance. split.
  - intros ->. unfold c_sub at 2. simpl.
    replace (1 - 1) with 0 by ring. replace (0 - 0) with 0 by ring.
    by rewrite c_div_zero.
  - intros Hg.
    assert (Hd : c_sub gamma (of_real 1) <> Complex 0 0).
    { destruct gamma as [gr gi]. unfold c_sub. simpl. intros [= Hr Hi].
      apply Hg. f_equal; lra. }
    rewrite (c_div_ok _ _ Hd). eauto.
Qed.

Lemma gamma_to_impedance_spec_witness :
  gamma_to_impedance (Complex 1 0) 50 = Ok (VFloat PInf) /\
  exists q,
    c_div (c_sub (c_neg (Complex 0 0)) (of_real 1)) (c_sub (Complex 0 0) (of_real 1)) = Ok q /\
    gamma_to_impedance (Complex 0 0) 50 = Ok (of_complex (c_mul q (of_real 50))).
Proof.
  split.
  - apply (proj1 (gamma_to_impedance_spec (Complex 1 0) 50)). reflexivity.
  - apply (proj2 (gamma_to_impedance_spec (Complex 0 0) 50)).
    intros [= H]. lra.
Defined.

(** C6: [impedance_to_capacitance] returns [-inf] at [f == 0], [+inf] when
    [f != 0] and [Im(Z) == 0], and [-1/(2 pi f Im(Z))] otherwise;
    [impedance_to_inductance] returns [0] at [f == 0] and
    [Im(Z)/(2 pi f)] otherwise. *)
Theorem capacitance_inductance_spec (z : complex) (f : R) :
  (f = 0 -> impedance_to_capacitance z f = Ok NInf) /\
  (f <> 0 -> imag z = 0 -> impedance_to_capacitance z f = Ok PInf) /\
  (f <> 0 -> imag z <> 0 ->
   impedance_to_capacitance z f = Ok (Fin (- (1 / (f * 2 * PI * imag z)))) /\
   - (1 / (f * 2 * PI * imag z)) = - 1 / (2 * PI * f * imag z)) /\
  (f = 0 -> impedance_to_inductance z f = Ok (VInt 0)) /\
  (f <> 0 ->
   impedance_to_inductance z f = Ok (VFloat (Fin (imag z * 1 / (f * 2 * PI)))) /\
   imag z * 1 / (f * 2 * PI) = imag z / (2 * PI * f)).
Proof.
  pose proof PI_RGT_0 as Hpi.
  unfold impedance_to_capacitance, impedance_to_inductance.
  split; [| split; [| split; [| split]]].
  - intros ->. by rewrite float_eqb_refl.
  - intros Hf Hz. apply float_eqb_neq in Hf as ->. by rewrite Hz, float_eqb_refl.
  - intros Hf Hz.
    assert (Hp : f * 2 * PI * imag z <> 0).
    { apply Rmult_integral_contrapositive_currified; [| assumption].
      by apply freq_two_pi_neq_0. }
    split; [| field; repeat split; lra].
    apply float_eqb_neq in Hf as ->. apply float_eqb_neq in Hz as ->.
    by rewrite float_div_ok.
  - intros ->. by rewrite float_eqb_refl.
  - intros Hf.
    assert (Hp : f * 2 * PI <> 0) by (by apply freq_two_pi_neq_0).
    split; [| field; split; lra].
    apply float_eqb_neq in Hf as ->. by rewrite float_div_ok.
Qed.

Lemma capacitance_inductance_spec_witness :
  impedance_to_capacitance (Complex 50 10) 0 = Ok NInf /\
  impedance_to_capacitance (Complex 50 0) 1000000 = Ok PInf /\
  impedance_to_inductance (Complex 50 10) 0 = Ok (VInt 0).
Proof.
  split; [| split].
  - apply (proj1 (capacitance_inductance_spec (Complex 50 10) 0)). reflexivity.
  - apply (proj1 (proj2 (capacitance_inductance_spec (Complex 50 0) 1000000)));
      [lra | reflexivity].
  - apply (proj1 (proj2 (proj2 (proj2 (capacitance_inductance_spec (Complex 50 10) 0))))).
    reflexivity.
Defined.
End TransformFacts.

Section ImpedanceFacts.
Local Open Scope R_scope.

(** C9, counterexample: with [Z0 == 0] the round trip raises
    [ZeroDivisionError]; and on binary64, with the default [Z0 = 50], the
    round trip of [0.35000000000000003+0j] returns [0.35+0j], which is not
    equal to the argument. *)
Lemma norm_roundtrip_fails :
  impedance_to_norm (norm_to_impedance (Complex 1 0) 0) 0 = Raise ZeroDivisionError /\
  exists r,
    Binary64.impedance_to_norm
      (Binary64.norm_to_impedance Binary64.sample Binary64.default_ref)
      Binary64.default_ref = Ok r /\
    Binary64.c_eqb r Binary64.sample = false.
Proof.
  split.
  - unfold impedance_to_norm, norm_to_impedance, c_mul, of_real. simpl.
    apply c_div_zero.
  - eexists. split; [vm_compute; reflexivity | vm_compute; reflexivity].
Qed.

(** C9, amended: for every complex [Z] and every nonzero [Z0], in exact
    arithmetic [impedance_to_norm(norm_to_impedance(Z, Z0), Z0)] returns
    [Z]. *)
Theorem norm_roundtrip (z : complex) (ref_impedance : R) :
  ref_impedance <> 0 ->
  impedance_to_norm (norm_to_impedance z ref_impedance) ref_impedance = Ok z.
Proof.
  intros Hz. unfold impedance_to_norm, norm_to_impedance.
  rewrite c_div_ok by (unfold of_real; congruence).
  destruct z as [zr zi]. unfold c_mul, of_real. simpl.
  f_equal. f_equal; field; lra.
Qed.

Lemma norm_roundtrip_witness :
  impedance_to_norm (norm_to_impedance (Complex 1 2) 50) 50 = Ok (Complex 1 2).
Proof. apply norm_roundtrip. lra. Defined.

(** C10: when exactly one of [Re(Z)], [Im(Z)] is zero, [|Z|^2] is strictly
    positive, the infinite slot of [serial_to_parallel(Z)] is positive
    infinity and the other slot is [|Z|^2] divided by the nonzero part. *)
Theorem serial_to_parallel_one_zero (z : complex) :
  let z_sq_sum := real z ^ 2 + imag z ^ 2 in
  (imag z = 0 -> real z <> 0 ->
   0 < z_sq_sum /\ copysign_inf z_sq_sum = PInf /\
   serial_to_parallel z = Ok (VComplex (Fin (z_sq_sum / real z)) PInf)) /\
  (real z = 0 -> imag z <> 0 ->
   0 < z_sq_sum /\ copysign_inf z_sq_sum = PInf /\
   serial_to_parallel z = Ok (VComplex PInf (Fin (z_sq_sum / imag z)))).
Proof.
  destruct z as [zr zi]. unfold serial_to_parallel, copysign_inf. simpl.
  split; intros -> Hnz.
  - assert (Hpos : 0 < zr * (zr * 1) + 0 * (0 * 1)) by nra.
    apply float_eqb_neq in Hnz as Hb.
    rewrite Hb, float_eqb_refl, (proj2 (float_leb_le _ _)) by lra. simpl.
    by rewrite float_div_ok.
  - assert (Hpos : 0 < 0 * (0 * 1) + zi * (zi * 1)) by nra.
    apply float_eqb_neq in Hnz as Hb.
    rewrite Hb, float_eqb_refl, (proj2 (float_leb_le _ _)) by lra. simpl.
    by rewrite float_div_ok.
Qed.

Lemma serial_to_parallel_one_zero_witness :
  serial_to_parallel (Complex 2 0) = Ok (VComplex (Fin ((2 ^ 2 + 0 ^ 2) / 2)) PInf).
Proof.
  apply (proj1 (serial_to_parallel_one_zero (Complex 2 0))); simpl; [reflexivity | lra].
Defined.
End ImpedanceFacts.

(** ** Sample list properties *)

Section ListFacts.
Local Open Scope R_scope.

Lemma clamp_value_range (v lo hi : Z) :
  (lo <= hi)%Z -> (lo <= clamp_value v lo hi <= hi)%Z.
Proof.
  intros Hle. unfold clamp_value.
  destruct (Z.ltb_spec v lo); [lia |].
  destruct (Z.ltb_spec hi v); lia.
Qed.

Lemma list_get_in_range {A : Type} (l : list A) (i : Z) :
  (0 <= i < Z.of_nat (length l))%Z ->
  exists a, l !! Z.to_nat i = Some a /\ list_get l i = Ok a.
Proof.
  intros Hi. unfold list_get.
  destruct (Z.ltb_spec i 0); [lia |].
  rewrite (proj2 (Z.leb_le _ _)), (proj2 (Z.ltb_lt _ _)) by lia. simpl.
  destruct (lookup_lt_is_Some_2 l (Z.to_nat i)) as [a Ha]; [lia |].
  exists a. by rewrite Ha.
Qed.

Lemma groupDelay_between (data : list Datapoint.t) (index : Z) :
  data <> [] ->
  let n := Z.of_nat (length data) in
  let i0 := clamp_value (index - 1) 0 (n - 1) in
  let i1 := clamp_value (index + 1) 0 (n - 1) in
  (0 <= i0 <= n - 1)%Z /\ (0 <= i1 <= n - 1)%Z /\
  exists lo hi,
    data !! Z.to_nat i0 = Some lo /\ data !! Z.to_nat i1 = Some hi /\
    groupDelay data index = Ok (delay_between lo hi).
Proof.
  intros Hne n i0 i1.
  assert (Hn : (0 <= n - 1)%Z).
  { subst n. destruct data; [done | simpl; lia]. }
  pose proof (clamp_value_range (index - 1) 0 (n - 1) Hn) as H0.
  pose proof (clamp_value_range (index + 1) 0 (n - 1) Hn) as H1.
  fold i0 in H0. fold i1 in H1.
  split; [assumption |]. split; [assumption |].
  destruct (list_get_in_range data i0) as (lo & Hlo & Glo); [subst n; lia |].
  destruct (list_get_in_range data i1) as (hi & Hhi & Ghi); [subst n; lia |].
  exists lo, hi. split; [assumption |]. split; [assumption |].
  unfold groupDelay. fold n. fold i0. fold i1. rewrite Ghi, Glo. simpl.
  unfold delay_between.
  destruct (Z.eqb_spec (Datapoint.freq hi - Datapoint.freq lo) 0) as [He | He].
  - by rewrite (proj2 (Z.eqb_eq _ _)) by lia.
  - rewrite (proj2 (Z.eqb_neq _ _)) by lia.
    pose proof PI_RGT_0 as Hpi.
    assert (Hf : IZR (Datapoint.freq hi - Datapoint.freq lo) <> 0).
    { intros Hc. apply eq_IZR_R0 in Hc. lia. }
    rewrite float_div_ok by (unfold tau; lra). simpl.
    rewrite float_div_ok by assumption. simpl.
    do 3 f_equal. unfold tau. field. split; [assumption | lra].
Qed.

(** C7: on a non-empty list [groupDelay] clamps [index - 1] and
    [index + 1] into the valid index range and returns the estimate between
    the two clamped samples ([0] when they share a frequency); on a
    3-point list it uses points 0 and 2 at index 1 and points 0 and 1 at
    index 0. *)
Theorem groupDelay_spec (data : list Datapoint.t) (index : Z) :
  data <> [] ->
  let n := Z.of_nat (length data) in
  let i0 := clamp_value (index - 1) 0 (n - 1) in
  let i1 := clamp_value (index + 1) 0 (n - 1) in
  ((0 <= i0 <= n - 1)%Z /\ (0 <= i1 <= n - 1)%Z /\
   exists lo hi,
     data !! Z.to_nat i0 = Some lo /\ data !! Z.to_nat i1 = Some hi /\
     groupDelay data index = Ok (delay_between lo hi)) /\
  (forall a b c, data = [a; b; c] ->
     (index = 1%Z -> groupDelay data index = Ok (delay_between a c)) /\
     (index = 0%Z -> groupDelay data index = Ok (delay_between a b))).
Proof.
  intros Hne n i0 i1. split; [by apply groupDelay_between |].
  intros a b c Hd.
  destruct (groupDelay_between data index Hne) as (_ & _ & lo & hi & Hlo & Hhi & ->).
  subst data. split; intros ->; simpl in Hlo, Hhi; congruence.
Qed.

Lemma groupDelay_spec_witness :
  groupDelay [Datapoint.mk 1 1 0; Datapoint.mk 2 0 1; Datapoint.mk 3 (-1) 0] 1 =
    Ok (delay_between (Datapoint.mk 1 1 0) (Datapoint.mk 3 (-1) 0)).
Proof.
  refine (proj1 (proj2 (groupDelay_spec _ 1 _) _ _ _ eq_refl) eq_refl).
  discriminate.
Defined.

Lemma c_abs_scale (a : complex) (k : R) :
  0 <= k -> c_abs (Complex (real a * k) (imag a * k)) = k * c_abs a.
Proof.
  intros Hk. unfold c_abs. simpl.
  replace (real a * k * (real a * k) + imag a * k * (imag a * k))
    with (k * k * (real a * real a + imag a * imag a)) by ring.
  rewrite sqrt_mult by nra. by rewrite sqrt_square.
Qed.

Lemma attenuation_20 : float_pow 10 (20 / 20) = 10.
Proof.
  unfold float_pow. replace (20 / 20) with 1 by (field; lra).
  apply Rpower_1. lra.
Qed.

Lemma corr_att_data_lookup (data : list Datapoint.t) (att : R) (i : nat) :
  0 < att ->
  corr_att_data data att !! i =
    (fun dp => Datapoint.mk (Datapoint.freq dp)
                 (Datapoint.re dp * float_pow 10 (att / 20))
                 (Datapoint.im dp * float_pow 10 (att / 20))) <$> data !! i.
Proof.
  intros Ha. unfold corr_att_data.
  rewrite (proj2 (float_leb_gt _ _)) by assumption.
  rewrite list_lookup_fmap. destruct (data !! i) as [dp |]; [| reflexivity].
  simpl. do 2 f_equal; ring.
Qed.

(** C8: with [att <= 0], [corr_att_data] returns its input; with [att > 0]
    it returns a list of the same length whose samples keep their
    frequency and have their complex value scaled by [10^(att/20)]; with
    [att = 20] the factor is exactly 10, for both parts and so for the
    magnitude of every sample. *)
Theorem corr_att_data_spec (data : list Datapoint.t) (att : R) :
  (att <= 0 -> corr_att_data data att = data) /\
  (0 < att ->
   length (corr_att_data data att) = length data /\
   forall i dp, data !! i = Some dp ->
     exists dp', corr_att_data data att !! i = Some dp' /\
       Datapoint.freq dp' = Datapoint.freq dp /\
       Datapoint.re dp' = Datapoint.re dp * float_pow 10 (att / 20) /\
       Datapoint.im dp' = Datapoint.im dp * float_pow 10 (att / 20)) /\
  (forall i dp, data !! i = Some dp ->
     exists dp', corr_att_data data 20 !! i = Some dp' /\
       Datapoint.freq dp' = Datapoint.freq dp /\
       Datapoint.re dp' = Datapoint.re dp * 10 /\
       Datapoint.im dp' = Datapoint.im dp * 10 /\
       c_abs (Datapoint.z dp') = 10 * c_abs (Datapoint.z dp)).
Proof.
  split; [| split].
  - intros Ha. unfold corr_att_data. by rewrite (proj2 (float_leb_le _ _)).
  - intros Ha. split.
    + unfold corr_att_data. rewrite (proj2 (float_leb_gt _ _)) by assumption.
      apply length_fmap.
    + intros i dp Hi. rewrite corr_att_data_lookup, Hi by assumption. simpl. eauto.
  - intros i dp Hi. rewrite corr_att_data_lookup, Hi by lra. simpl.
    rewrite attenuation_20.
    eexists. split; [reflexivity |]. do 3 (split; [reflexivity |]).
    unfold Datapoint.z at 1. simpl.
    apply (c_abs_scale (Datapoint.z dp)). lra.
Qed.

Lemma corr_att_data_spec_witness :
  corr_att_data [Datapoint.mk 1 3 4] 0 = [Datapoint.mk 1 3 4] /\
  length (corr_att_data [Datapoint.mk 1 3 4] 20) = 1%nat.
Proof.
  split.
  - apply (proj1 (corr_att_data_spec [Datapoint.mk 1 3 4] 0)). lra.
  - apply (proj1 (proj2 (corr_att_data_spec [Datapoint.mk 1 3 4] 20))). lra.
Defined.
End ListFacts.

(** ** DataSet properties *)

Section DataSetFacts.
Import DataSet.
Local Open Scope R_scope.

Lemma single_freq_share (datapoints : list Datapoint.t) :
  size (list_to_set (Datapoint.freq <$> datapoints) : gset Z) = 1%nat <->
  share_one_freq datapoints.
Proof.
  split.
  - intros Hs. apply size_1_elem_of in Hs as [f Hf]. exists f.
    assert (Hin : forall dp, dp ∈ datapoints -> Datapoint.freq dp = f).
    { intros dp Hdp.
      assert (Datapoint.freq dp ∈ (list_to_set (Datapoint.freq <$> datapoints) : gset Z))
        as Hm by (apply elem_of_list_to_set, list_elem_of_fmap; eauto).
      rewrite Hf in Hm. by apply elem_of_singleton in Hm. }
    split.
    + intros ->. simpl in Hf. set_solver.
    + by apply Forall_forall.
  - intros (f & Hne & Hall).
    assert (Heq : (list_to_set (Datapoint.freq <$> datapoints) : gset Z) = {[f]}).
    { apply set_eq. intros g. rewrite elem_of_list_to_set, list_elem_of_fmap, elem_of_singleton.
      rewrite Forall_forall in Hall. split.
      - intros (dp & -> & Hdp). by apply Hall.
      - intros ->. destruct datapoints as [| dp l]; [done |].
        exists dp. split; [symmetry; apply Hall |]; by left. }
    rewrite Heq. apply size_singleton.
Qed.

Lemma insert_unfold (datapoints : list Datapoint.t) (self : t) :
  insert datapoints self =
    if negb (length datapoints =? length (fields self))%nat then (Raise AssertionError, self)
    else if negb (size (list_to_set (Datapoint.freq <$> datapoints) : gset Z) =? 1)%nat
    then (Raise AssertionError, self)
    else match datapoints with
         | [] => (Raise IndexError, self)
         | dp0 :: _ =>
             (Ok tt, mk (fields self)
                        (<[Datapoint.freq dp0 := Datapoint.z <$> datapoints]> (data self))
                        (interp self) false)
         end.
Proof.
  unfold insert, mbind, M_bind, get, py_assert, lift. simpl.
  destruct (length datapoints =? length (fields self))%nat; [| reflexivity]. simpl.
  destruct (size _ =? 1)%nat; [| reflexivity]. simpl.
  destruct datapoints as [| dp0 l]; reflexivity.
Qed.

Lemma insert_complex_unfold (f : Z) (values : list complex) (self : t) :
  insert_complex f values self =
    if negb (length values =? length (fields self))%nat then (Raise AssertionError, self)
    else (Ok tt, mk (fields self) (<[f := values]> (data self)) (interp self) false).
Proof.
  unfold insert_complex, mbind, M_bind, get, py_assert, lift. simpl.
  destruct (length values =? length (fields self))%nat; reflexivity.
Qed.

Lemma insert_raises (datapoints : list Datapoint.t) (self : t) :
  length datapoints <> length (fields self) \/ ~ share_one_freq datapoints ->
  insert datapoints self = (Raise AssertionError, self).
Proof.
  intros H. rewrite insert_unfold.
  destruct (Nat.eqb_spec (length datapoints) (length (fields self))) as [Hl | Hl];
    [| reflexivity]. simpl.
  destruct (Nat.eqb_spec (size (list_to_set (Datapoint.freq <$> datapoints) : gset Z)) 1)
    as [Hs | Hs]; [| reflexivity].
  apply single_freq_share in Hs. tauto.
Qed.

Lemma insert_stores (datapoints : list Datapoint.t) (self : t) (f : Z) :
  length datapoints = length (fields self) ->
  datapoints <> [] ->
  Forall (fun dp => Datapoint.freq dp = f) datapoints ->
  insert datapoints self =
    (Ok tt, mk (fields self) (<[f := Datapoint.z <$> datapoints]> (data self))
               (interp self) false).
Proof.
  intros Hl Hne Hall. rewrite insert_unfold.
  rewrite (proj2 (Nat.eqb_eq _ _) Hl). simpl.
  assert (Hs : share_one_freq datapoints) by (exists f; done).
  apply single_freq_share in Hs. rewrite (proj2 (Nat.eqb_eq _ _) Hs). simpl.
  destruct datapoints as [| dp0 l]; [done |].
  by rewrite (Forall_inv Hall).
Qed.

Lemma insert_well_formed (datapoints : list Datapoint.t) (self : t) :
  well_formed self ->
  fields (insert datapoints self).2 = fields self /\
  well_formed (insert datapoints self).2.
Proof.
  intros Hwf. rewrite insert_unfold.
  destruct (Nat.eqb_spec (length datapoints) (length (fields self))) as [Hl | Hl];
    [| done]. simpl.
  destruct (size _ =? 1)%nat; [| done]. simpl.
  destruct datapoints as [| dp0 l]; [done |]. simpl. split; [done |].
  unfold well_formed. simpl. apply map_Forall_insert_2; [| done].
  rewrite <- Hl. simpl. by rewrite length_fmap.
Qed.

Lemma insert_complex_well_formed (f : Z) (values : list complex) (self : t) :
  well_formed self ->
  fields (insert_complex f values self).2 = fields self /\
  well_formed (insert_complex f values self).2.
Proof.
  intros Hwf. rewrite insert_complex_unfold.
  destruct (Nat.eqb_spec (length values) (length (fields self))) as [Hl | Hl];
    [| done]. simpl. split; [done |].
  unfold well_formed. simpl. by apply map_Forall_insert_2.
Qed.

Ltac case_results :=
  repeat match goal with
    | |- context [match ?r with Ok _ => _ | Raise _ => _ end] =>
        destruct r; simpl
    end.

Lemma gen_field_effect (i : nat) (self : t) :
  same_store self (gen_field i self).2 /\
  match (gen_field i self).1 with
  | Ok _ => exists p, interp (gen_field i self).2 = interp self ++ [p]
  | Raise _ => (gen_field i self).2 = self
  end.
Proof.
  unfold gen_field, same_store, mbind, M_bind, get, lift, interp_append. simpl.
  case_results; eauto.
Qed.

Lemma for_each_gen_field_effect (l : list nat) (self : t) :
  same_store self (for_each l gen_field self).2 /\
  exists ps, interp (for_each l gen_field self).2 = interp self ++ ps /\
    match (for_each l gen_field self).1 with
    | Ok _ => length ps = length l
    | Raise _ => (length ps < length l)%nat
    end.
Proof.
  revert self. induction l as [| i l IH]; intros self.
  - simpl. split; [done |]. exists []. by rewrite app_nil_r.
  - simpl. unfold mbind, M_bind.
    destruct (gen_field_effect i self) as [[Hf Hd] Hi].
    destruct (gen_field i self) as [[[] | e] self1]; simpl in *.
    + destruct Hi as [p Hp]. specialize (IH self1).
      destruct (for_each l gen_field self1) as [r2 self2]. simpl in *.
      destruct IH as [[Hf' Hd'] (ps & Hps & Hlen)].
      split; [split; congruence |].
      exists (p :: ps). rewrite Hps, Hp, <- app_assoc. split; [done |].
      destruct r2; simpl; lia.
    + subst self1. split; [done |]. exists []. rewrite app_nil_r.
      split; [done | simpl; lia].
Qed.

Lemma gen_interpolation_effect (self : t) :
  same_store self (gen_interpolation self).2 /\
  match (gen_interpolation self).1 with
  | Ok _ =>
      length (interp (gen_interpolation self).2) =
        (length (interp self) + length (fields self))%nat /\
      inter_valid (gen_interpolation self).2 = true
  | Raise _ => True
  end.
Proof.
  unfold gen_interpolation, mbind, M_bind, get, set_inter_valid. simpl.
  destruct (for_each_gen_field_effect (seq 0 (length (fields self))) self)
    as [[Hf Hd] (ps & Hps & Hlen)].
  destruct (for_each _ gen_field self) as [[[] | e] self1]; simpl in *.
  - split; [done |]. rewrite Hps, length_app, Hlen, length_seq. done.
  - done.
Qed.

Lemma freq_effect (f : Z) (self : t) : same_store self (freq f self).2.
Proof.
  unfold freq, mbind, M_bind, get. simpl.
  destruct (inter_valid self); simpl; [done |].
  destruct (gen_interpolation_effect self) as [Hs _].
  destruct (gen_interpolation self) as [[[] | e] self1]; simpl in *; done.
Qed.

Lemma reachable_well_formed (fs : list string) (self : t) :
  reachable fs self -> fields self = fs /\ well_formed self.
Proof.
  induction 1 as [| self _ [Hf Hwf] | self dps _ [Hf Hwf] | self f values _ [Hf Hwf]
                 | self _ [Hf Hwf] | self f _ [Hf Hwf]].
  - split; [done |]. unfold well_formed. simpl. apply map_Forall_empty.
  - done.
  - destruct (insert_well_formed dps self Hwf) as [Hf' Hwf'].
    split; [congruence | done].
  - destruct (insert_complex_well_formed f values self Hwf) as [Hf' Hwf'].
    split; [congruence | done].
  - destruct (gen_interpolation_effect self) as [[Hf' Hd'] _].
    split; [congruence |]. unfold well_formed. by rewrite Hf', Hd'.
  - destruct (freq_effect f self) as [Hf' Hd'].
    split; [congruence |]. unfold well_formed. by rewrite Hf', Hd'.
Qed.

(** C3: [insert] fails with [AssertionError] (the spec's
    InvariantViolation), leaving the object as it was, whenever the number
    of datapoints differs from [len(fields)] or the datapoints do not share
    one frequency; otherwise it stores their complex values under that
    frequency and clears [inter_valid]; and every entry of [data] of every
    reachable object has [len(fields)] values. *)
Theorem insert_spec (self : t) (datapoints : list Datapoint.t) :
  (length datapoints <> length (fields self) \/ ~ share_one_freq datapoints ->
   insert datapoints self = (Raise AssertionError, self)) /\
  (length datapoints = length (fields self) -> share_one_freq datapoints ->
   exists f,
     Forall (fun dp => Datapoint.freq dp = f) datapoints /\
     insert datapoints self =
       (Ok tt, mk (fields self) (<[f := Datapoint.z <$> datapoints]> (data self))
                  (interp self) false)) /\
  (forall fs, reachable fs self ->
     map_Forall (fun _ values => length values = length fs) (data self) /\
     map_Forall (fun _ values => length values = length fs)
                (data (insert datapoints self).2)).
Proof.
  split; [apply insert_raises |]. split.
  - intros Hl (f & Hne & Hall). exists f. split; [done |]. by apply insert_stores.
  - intros fs Hr. split.
    + destruct (reachable_well_formed fs self Hr) as [<- Hwf]. done.
    + destruct (reachable_well_formed fs _ (reach_insert fs self datapoints Hr))
        as [<- Hwf]. done.
Qed.

Lemma insert_spec_witness :
  insert [Datapoint.mk 5 1 0] (init ["11"%string; "21"%string]) =
    (Raise AssertionError, init ["11"%string; "21"%string]) /\
  exists f,
    Forall (fun dp => Datapoint.freq dp = f) (sample 5 1 1) /\
    insert (sample 5 1 1) (init default_fields) =
      (Ok tt, mk default_fields (<[f := Datapoint.z <$> sample 5 1 1]> ∅) [] false).
Proof.
  split.
  - apply (proj1 (insert_spec (init ["11"%string; "21"%string]) [Datapoint.mk 5 1 0])).
    left. simpl. lia.
  - apply (proj1 (proj2 (insert_spec (init default_fields) (sample 5 1 1)))).
    + reflexivity.
    + exists 5%Z. split; [discriminate |]. repeat constructor.
Defined.

Lemma call_first_knot (x0 x1 : Z) (y0 y1 lo hi : R) :
  (x0 < x1)%Z -> call (Interp1d [x0; x1] [y0; y1] lo hi) (IZR x0) = y0.
Proof.
  intros Hx. apply IZR_lt in Hx. unfold call. simpl.
  rewrite (proj2 (float_ltb_ge _ _)) by lra.
  rewrite (proj2 (float_leb_le _ _)) by lra. ring.
Qed.

Lemma call_beyond_last (x0 x1 x2 : Z) (y0 y1 y2 lo hi x : R) :
  IZR x2 < x -> (x0 < x1 < x2)%Z ->
  call (Interp1d [x0; x1; x2] [y0; y1; y2] lo hi) x = hi.
Proof.
  intros Hx [H01 H12]. apply IZR_lt in H01, H12. unfold call. simpl.
  rewrite (proj2 (float_ltb_ge _ _)) by lra.
  by rewrite !(proj2 (float_leb_gt _ _)) by lra.
Qed.

(** The examples of the spec: the first read of the test returns one
    Datapoint per field with the values inserted, and a read beyond the
    sampled range returns the last sample (flat extrapolation). *)
Example first_read_is_current :
  (insert (sample 1000000 1 1);; insert (sample 2000000 3 3);; freq 1000000)
    (init default_fields) =
  (Ok [Datapoint.mk 1000000 1 0; Datapoint.mk 1000000 0 1],
   mk default_fields
      {[1000000%Z := [Complex 1 0; Complex 0 1]; 2000000%Z := [Complex 3 0; Complex 0 3]]}
      [(Interp1d [1000000; 2000000]%Z [1; 3] 1 3, Interp1d [1000000; 2000000]%Z [0; 0] 0 0);
       (Interp1d [1000000; 2000000]%Z [0; 0] 0 0, Interp1d [1000000; 2000000]%Z [1; 3] 1 3)]
      true).
Proof.
  pose (old := Interp1d [1000000; 2000000]%Z [1; 3] 1 3).
  pose (zero := Interp1d [1000000; 2000000]%Z [0; 0] 0 0).
  transitivity
    (Ok ((fun i => Datapoint.mk 1000000 (call i.1 (IZR 1000000)) (call i.2 (IZR 1000000)))
           <$> [(old, zero); (zero, old)]),
     mk default_fields
        {[1000000%Z := [Complex 1 0; Complex 0 1]; 2000000%Z := [Complex 3 0; Complex 0 3]]}
        [(old, zero); (zero, old)] true).
  - vm_compute. reflexivity.
  - subst old zero. simpl. by rewrite !call_first_knot by lia.
Qed.

Example read_beyond_max :
  call (Interp1d [1000000; 2000000; 3000000]%Z [1; 2; 3] 1 3) (IZR 5000000) = 3.
Proof. apply call_beyond_last; [apply IZR_lt |]; lia. Qed.

(** C1, at the failing input: a successful [gen_interpolation] adds
    [len(fields)] pairs to whatever [interp] held; in the cache
    invalidation test the second read therefore returns four Datapoints
    for two fields, and the first two carry the values [data] no longer
    holds. *)
Theorem second_read_is_stale :
  (forall self,
     match (gen_interpolation self).1 with
     | Ok _ =>
         length (interp (gen_interpolation self).2) =
           (length (interp self) + length (fields self))%nat
     | Raise _ => True
     end) /\
  exists l self',
    invalidation_test (init default_fields) = (Ok l, self') /\
    length (fields self') = 2%nat /\
    length l = 4%nat /\
    data self' !! 1000000%Z = Some [Complex 2 0; Complex 0 2] /\
    l !! 0%nat = Some (Datapoint.mk 1000000 1 0) /\
    l !! 1%nat = Some (Datapoint.mk 1000000 0 1) /\
    l !! 2%nat = Some (Datapoint.mk 1000000 2 0) /\
    l !! 3%nat = Some (Datapoint.mk 1000000 0 2).
Proof.
  split.
  - intros self. destruct (gen_interpolation_effect self) as [_ H].
    destruct (gen_interpolation self).1; [apply H | done].
  - pose (xs := [1000000; 2000000]%Z).
    pose (zero := Interp1d xs [0; 0] 0 0).
    pose (old := Interp1d xs [1; 3] 1 3).
    pose (new := Interp1d xs [2; 4] 2 4).
    exists ((fun i => Datapoint.mk 1000000 (call i.1 (IZR 1000000)) (call i.2 (IZR 1000000)))
              <$> [(old, zero); (zero, old); (new, zero); (zero, new)]).
    eexists. split; [vm_compute; reflexivity |].
    split; [reflexivity |]. split; [reflexivity |].
    split; [vm_compute; reflexivity |].
    subst zero old new xs. simpl.
    rewrite !call_first_knot by lia. done.
Qed.
End DataSetFacts.

(** * Properties of the rest of the module *)

(** ** Reflection coefficient and impedance *)

Section ReflectionFacts.
Local Open Scope R_scope.

Lemma complex_eq (a b : complex) :
  real a = real b -> imag a = imag b -> a = b.
Proof. destruct a, b. simpl. by intros -> ->. Qed.

Lemma one_minus_gamma_pos (a b : R) :
  Complex a b <> Complex 1 0 -> 0 < (a - 1) * (a - 1) + b * b.
Proof.
  intros Hg. destruct (Req_dec_T a 1) as [-> | Ha].
  - assert (b <> 0) by (intros ->; by apply Hg). nra.
  - nra.
Qed.

(** The impedance of a reflection coefficient other than 1, in closed
    form. *)
Lemma gamma_to_impedance_parts (gamma : complex) (ref_impedance : R) :
  gamma <> Complex 1 0 ->
  let d := (real gamma - 1) * (real gamma - 1) + imag gamma * imag gamma in
  gamma_to_impedance gamma ref_impedance =
    Ok (of_complex
          (Complex (ref_impedance * (1 - real gamma * real gamma - imag gamma * imag gamma) / d)
                   (ref_impedance * (2 * imag gamma) / d))).
Proof.
  intros Hg d. destruct gamma as [a b]. simpl in d.
  pose proof (one_minus_gamma_pos a b Hg) as Hd. fold d in Hd.
  unfold gamma_to_impedance. rewrite c_div_ok.
  2: { unfold c_sub, of_real. simpl. intros [= Hr Hi]. apply Hg. f_equal; lra. }
  unfold of_complex, c_mul, c_sub, c_neg, of_real. simpl.
  do 2 f_equal; f_equal; unfold d; field; fold d; lra.
Qed.

Lemma c_abs_le_1 (a : complex) :
  c_abs a <= 1 <-> real a * real a + imag a * imag a <= 1.
Proof.
  unfold c_abs. split; intros H.
  - apply sqrt_le_0; [nra | lra |]. by rewrite sqrt_1.
  - rewrite <- sqrt_1. apply sqrt_le_1; [nra | lra | done].
Qed.

Lemma c_abs_eq_1 (a : complex) :
  c_abs a = 1 <-> real a * real a + imag a * imag a = 1.
Proof.
  unfold c_abs. split; intros H.
  - apply sqrt_inj; [nra | lra |]. by rewrite sqrt_1.
  - rewrite H. apply sqrt_1.
Qed.

Lemma c_add_ref_neq_0 (z : complex) (ref_impedance : R) :
  c_add z (of_real ref_impedance) <> Complex 0 0 ->
  0 < (real z + ref_impedance) * (real z + ref_impedance) + imag z * imag z.
Proof.
  destruct z as [x y]. unfold c_add, of_real. simpl. intros Hz.
  destruct (Req_dec_T (x + ref_impedance) 0) as [Hx | Hx].
  - assert (y <> 0) by (intros ->; apply Hz; f_equal; lra). nra.
  - nra.
Qed.

(** The reflection coefficient of an impedance other than
    [-ref_impedance], in closed form. *)
Lemma reflection_coefficient_parts (z : complex) (ref_impedance : R) :
  c_add z (of_real ref_impedance) <> Complex 0 0 ->
  let s := (real z + ref_impedance) * (real z + ref_impedance) + imag z * imag z in
  reflection_coefficient z ref_impedance =
    Ok (Complex ((real z * real z + imag z * imag z - ref_impedance * ref_impedance) / s)
                (2 * ref_impedance * imag z / s)).
Proof.
  intros Hz s. pose proof (c_add_ref_neq_0 z ref_impedance Hz) as Hs. fold s in Hs.
  unfold reflection_coefficient. rewrite c_div_ok by assumption.
  destruct z as [x y]. unfold c_add, c_sub, of_real in *. simpl in *.
  f_equal. apply complex_eq; simpl; unfold s; field; fold s; lra.
Qed.

(** X1: a reflection coefficient other than 1, turned into an impedance
    against a nonzero reference and back, is recovered. *)
Theorem gamma_impedance_round_trip (gamma : complex) (ref_impedance : R) :
  gamma <> Complex 1 0 -> ref_impedance <> 0 ->
  exists z,
    gamma_to_impedance gamma ref_impedance = Ok (of_complex z) /\
    reflection_coefficient z ref_impedance = Ok gamma.
Proof.
  intros Hg Hz0. eexists. split; [by apply gamma_to_impedance_parts |].
  destruct gamma as [a b]. simpl.
  pose proof (one_minus_gamma_pos a b Hg) as Hd.
  set (d := (a - 1) * (a - 1) + b * b) in *.
  set (zr := ref_impedance * (1 - a * a - b * b) / d).
  set (zi := ref_impedance * (2 * b) / d).
  assert (Hr : zr + ref_impedance = 2 * ref_impedance * (1 - a) / d).
  { unfold zr, d. field. fold d. lra. }
  assert (Hs : (zr + ref_impedance) * (zr + ref_impedance) + zi * zi
               = 4 * ref_impedance * ref_impedance / d).
  { rewrite Hr. unfold zi, d. field. fold d. lra. }
  assert (Hs0 : 0 < 4 * ref_impedance * ref_impedance / d).
  { apply Rdiv_lt_0_compat; [nra | done]. }
  rewrite reflection_coefficient_parts.
  2: { unfold c_add, of_real. simpl. intros [= H1 H2].
       fold zr in H1. fold zi in H2. rewrite Rplus_0_r in H2.
       rewrite H1, H2 in Hs. lra. }
  simpl. fold zr zi. rewrite Hs. f_equal. apply complex_eq; simpl.
  - unfold zr, zi, d. field. fold d. split; lra.
  - unfold zr, zi, d. field. fold d. split; lra.
Qed.

Lemma gamma_impedance_round_trip_witness :
  exists z,
    gamma_to_impedance (Complex 0 0) 50 = Ok (of_complex z) /\
    reflection_coefficient z 50 = Ok (Complex 0 0).
Proof.
  apply gamma_impedance_round_trip; [intros [= H] |]; lra.
Defined.

(** X2: [reflection_coefficient] raises [ZeroDivisionError] exactly when
    [z == -ref_impedance]; for any other impedance and a nonzero reference,
    [gamma_to_impedance] turns its result back into the impedance. *)
Theorem impedance_gamma_round_trip (z : complex) (ref_impedance : R) :
  (z = Complex (- ref_impedance) 0 <->
   reflection_coefficient z ref_impedance = Raise ZeroDivisionError) /\
  (z <> Complex (- ref_impedance) 0 -> ref_impedance <> 0 ->
   exists gamma,
     reflection_coefficient z ref_impedance = Ok gamma /\
     gamma_to_impedance gamma ref_impedance = Ok (of_complex z)).
Proof.
  assert (Hsum : z <> Complex (- ref_impedance) 0 ->
                 c_add z (of_real ref_impedance) <> Complex 0 0).
  { destruct z as [x y]. unfold c_add, of_real. simpl. intros Hz [= H1 H2].
    apply Hz. f_equal; lra. }
  split.
  - split.
    + intros ->. unfold reflection_coefficient, c_add, of_real. simpl.
      replace (- ref_impedance + ref_impedance) with 0 by ring.
      replace (0 + 0) with 0 by ring. apply c_div_zero.
    + intros Hr. destruct (c_eqb z (Complex (- ref_impedance) 0)) eqn:He.
      * by apply c_eqb_eq.
      * apply c_eqb_neq, Hsum in He.
        by rewrite (reflection_coefficient_parts z ref_impedance He) in Hr.
  - intros Hz Hz0. apply Hsum in Hz.
    pose proof (c_add_ref_neq_0 z ref_impedance Hz) as Hs.
    eexists. split; [by apply reflection_coefficient_parts |].
    destruct z as [x y]. simpl in *.
    set (s := (x + ref_impedance) * (x + ref_impedance) + y * y) in *.
    set (gr := (x * x + y * y - ref_impedance * ref_impedance) / s).
    set (gi := 2 * ref_impedance * y / s).
    assert (Hr : gr - 1 = - (2 * ref_impedance * (x + ref_impedance)) / s).
    { unfold gr, s. field. fold s. lra. }
    assert (Hd : (gr - 1) * (gr - 1) + gi * gi = 4 * ref_impedance * ref_impedance / s).
    { rewrite Hr. unfold gi, s. field. fold s. lra. }
    assert (Hd0 : 0 < 4 * ref_impedance * ref_impedance / s).
    { apply Rdiv_lt_0_compat; [nra | done]. }
    rewrite gamma_to_impedance_parts.
    2: { intros [= H1 H2]. fold gr in H1. fold gi in H2.
         rewrite H1, H2 in Hd. lra. }
    simpl. fold gr gi. rewrite Hd. unfold of_complex. simpl.
    do 2 f_equal; f_equal.
    + unfold gr, gi, s. field. fold s. split; lra.
    + unfold gr, gi, s. field. fold s. split; lra.
Qed.

Lemma impedance_gamma_round_trip_witness :
  exists gamma,
    reflection_coefficient (Complex 75 10) 50 = Ok gamma /\
    gamma_to_impedance gamma 50 = Ok (of_complex (Complex 75 10)).
Proof.
  apply (proj2 (impedance_gamma_round_trip (Complex 75 10) 50)); [intros [= H _] |]; lra.
Defined.

Lemma c_div_norm (a b q : complex) :
  c_div a b = Ok q ->
  (real q * real q + imag q * imag q) * (real b * real b + imag b * imag b)
  = real a * real a + imag a * imag a.
Proof.
  unfold c_div. destruct (c_eqb b (Complex 0 0)) eqn:Hb; [discriminate |].
  intros [= <-]. simpl. apply c_eqb_neq in Hb.
  assert (Hd : 0 < real b * real b + imag b * imag b).
  { destruct b as [br bi]. simpl.
    destruct (Req_dec_T br 0) as [-> | Hr].
    - assert (bi <> 0) by (intros ->; by apply Hb). nra.
    - nra. }
  field. lra.
Qed.

(** X3: against a positive reference, the reflection coefficient of an
    impedance has magnitude at most 1 exactly when the real part of the
    impedance is not negative, and magnitude 1 exactly when it is zero. *)
Theorem reflection_coefficient_passive (z : complex) (ref_impedance : R) :
  0 < ref_impedance -> z <> Complex (- ref_impedance) 0 ->
  exists gamma,
    reflection_coefficient z ref_impedance = Ok gamma /\
    (c_abs gamma <= 1 <-> 0 <= real z) /\
    (c_abs gamma = 1 <-> real z = 0).
Proof.
  intros Hz0 Hz.
  assert (Hsum : c_add z (of_real ref_impedance) <> Complex 0 0).
  { destruct z as [x y]. unfold c_add, of_real. simpl. intros [= H1 H2].
    apply Hz. f_equal; lra. }
  pose proof (c_add_ref_neq_0 z ref_impedance Hsum) as Hs.
  eexists. split; [by apply reflection_coefficient_parts |].
  pose proof (c_div_norm (c_sub z (of_real ref_impedance))
                (c_add z (of_real ref_impedance)) _
                (reflection_coefficient_parts z ref_impedance Hsum)) as Hn.
  rewrite c_abs_le_1, c_abs_eq_1.
  destruct z as [x y]. unfold c_add, c_sub, of_real in Hn. simpl in *.
  set (n := _ * _ + _ * _) in Hn at 1. fold n.
  set (s := (x + ref_impedance) * (x + ref_impedance) + y * y) in *.
  replace (x + ref_impedance) with (x + ref_impedance) in Hn by ring.
  assert (Hn' : n * s = s - 4 * ref_impedance * x).
  { replace ((x + ref_impedance) * (x + ref_impedance) + (y + 0) * (y + 0)) with s in Hn
      by (unfold s; ring).
    rewrite Hn. unfold s. ring. }
  split; split; intros H; nra.
Qed.

Lemma reflection_coefficient_passive_witness :
  exists gamma,
    reflection_coefficient (Complex 75 10) 50 = Ok gamma /\
    (c_abs gamma <= 1 <-> 0 <= 75) /\
    (c_abs gamma = 1 <-> 75 = 0).
Proof.
  apply (reflection_coefficient_passive (Complex 75 10) 50); [| intros [= H _]]; lra.
Defined.

(** X4: against a positive reference, the impedance of a reflection
    coefficient other than 1 has a real part that is not negative exactly
    when the magnitude of the coefficient is at most 1, and zero exactly
    when it is 1. *)
Theorem gamma_to_impedance_passive (gamma : complex) (ref_impedance : R) :
  0 < ref_impedance -> gamma <> Complex 1 0 ->
  exists z,
    gamma_to_impedance gamma ref_impedance = Ok (of_complex z) /\
    (0 <= real z <-> c_abs gamma <= 1) /\
    (real z = 0 <-> c_abs gamma = 1).
Proof.
  intros Hz0 Hg. eexists. split; [by apply gamma_to_impedance_parts |].
  rewrite c_abs_le_1, c_abs_eq_1. destruct gamma as [a b]. simpl.
  pose proof (one_minus_gamma_pos a b Hg) as Hd.
  set (d := (a - 1) * (a - 1) + b * b) in *.
  set (n := a * a + b * b).
  replace (1 - a * a - b * b) with (1 - n) by (unfold n; ring).
  assert (Hinv : 0 < / d) by (by apply Rinv_0_lt_compat).
  unfold Rdiv. split; split; intros H.
  - assert (0 <= ref_impedance * (1 - n)) by nra. nra.
  - assert (0 <= ref_impedance * (1 - n)) by nra. nra.
  - apply Rmult_integral in H as [H | H]; [| lra].
    apply Rmult_integral in H as [H | H]; lra.
  - rewrite H. ring.
Qed.

Lemma gamma_to_impedance_passive_witness :
  exists z,
    gamma_to_impedance (Complex 0 1) 50 = Ok (of_complex z) /\
    (0 <= real z <-> c_abs (Complex 0 1) <= 1) /\
    (real z = 0 <-> c_abs (Complex 0 1) = 1).
Proof.
  apply gamma_to_impedance_passive; [| intros [= H _]]; lra.
Defined.
End ReflectionFacts.

(** ** Serial and parallel equivalents, component values *)

Section EquivalentFacts.
Local Open Scope R_scope.

Lemma sq_sum_pos (x y : R) : x <> 0 \/ y <> 0 -> 0 < x ^ 2 + y ^ 2.
Proof. intros [H | H]; nra. Qed.

Lemma sq_sum_zero (x y : R) : x ^ 2 + y ^ 2 = 0 -> x = 0 /\ y = 0.
Proof. intros H. split; nra. Qed.

(** X5: [parallel_to_serial] raises [ZeroDivisionError] exactly at
    [z == 0], and returns [0] whenever exactly one part of [z] is zero. *)
Theorem parallel_to_serial_edges (z : complex) :
  (z = Complex 0 0 <-> parallel_to_serial z = Raise ZeroDivisionError) /\
  (z <> Complex 0 0 -> real z = 0 \/ imag z = 0 ->
   parallel_to_serial z = Ok (Complex 0 0)).
Proof.
  destruct z as [x y]. unfold parallel_to_serial. cbn [real imag].
  split; [split |].
  - intros [= -> ->]. replace (0 ^ 2 + 0 ^ 2) with 0 by ring.
    unfold float_div. by rewrite float_eqb_refl.
  - intros H. unfold float_div in H.
    destruct (float_eqb (x ^ 2 + y ^ 2) 0) eqn:He; [| discriminate].
    apply float_eqb_eq, sq_sum_zero in He as [-> ->]. reflexivity.
  - intros Hz Hone.
    assert (Hp : 0 < x ^ 2 + y ^ 2).
    { apply sq_sum_pos. destruct (Req_dec_T x 0) as [-> | Hx]; [right | by left].
      intros ->. by apply Hz. }
    rewrite !float_div_ok by lra. simpl in *.
    f_equal. apply complex_eq; simpl; destruct Hone as [-> | ->]; field; nra.
Qed.

Lemma parallel_to_serial_edges_witness :
  parallel_to_serial (Complex 0 50) = Ok (Complex 0 0).
Proof.
  apply (proj2 (parallel_to_serial_edges (Complex 0 50))).
  - intros [= H]. lra.
  - by left.
Defined.

(** X6: on impedances with both parts nonzero, [parallel_to_serial] and
    [serial_to_parallel] are inverse to each other, in both orders. *)
Theorem serial_parallel_round_trip (z : complex) :
  real z <> 0 -> imag z <> 0 ->
  (exists q, parallel_to_serial z = Ok q /\ serial_to_parallel q = Ok (of_complex z)) /\
  (exists p, serial_to_parallel z = Ok (of_complex p) /\ parallel_to_serial p = Ok z).
Proof.
  destruct z as [x y]. cbn [real imag]. intros Hx Hy.
  pose proof (sq_sum_pos x y (or_introl Hx)) as Hs.
  apply float_eqb_neq in Hx as Hbx. apply float_eqb_neq in Hy as Hby.
  split.
  - unfold parallel_to_serial. cbn [real imag].
    rewrite !float_div_ok by lra. simpl.
    eexists. split; [reflexivity |].
    set (s := x * (x * 1) + y * (y * 1)) in *.
    assert (Hs' : 0 < s) by (unfold s; nra).
    set (qr := x * (y * (y * 1)) / s). set (qi := x * (x * 1) * y / s).
    assert (Hqr : qr <> 0).
    { unfold qr, Rdiv. repeat apply Rmult_integral_contrapositive_currified;
        try assumption; try lra. apply Rinv_neq_0_compat. lra. }
    assert (Hqi : qi <> 0).
    { unfold qi, Rdiv. repeat apply Rmult_integral_contrapositive_currified;
        try assumption; try lra. apply Rinv_neq_0_compat. lra. }
    unfold serial_to_parallel. cbn [real imag].
    apply float_eqb_neq in Hqr as Hbr. apply float_eqb_neq in Hqi as Hbi.
    rewrite Hbr, Hbi. simpl. rewrite !float_div_ok by assumption. simpl.
    unfold of_complex. simpl. do 2 f_equal; f_equal.
    + unfold qr, qi, s. field. fold s. repeat split; lra.
    + unfold qr, qi, s. field. fold s. repeat split; lra.
  - unfold serial_to_parallel. cbn [real imag].
    rewrite Hbx, Hby. simpl. rewrite !float_div_ok by assumption. simpl.
    set (s := x * (x * 1) + y * (y * 1)) in *.
    assert (Hs' : 0 < s) by (unfold s; nra).
    exists (Complex (s / x) (s / y)). split; [reflexivity |].
    unfold parallel_to_serial. cbn [real imag].
    assert (Hp : (s / x) ^ 2 + (s / y) ^ 2 <> 0).
    { apply Rgt_not_eq, sq_sum_pos. left. unfold Rdiv.
      apply Rmult_integral_contrapositive_currified; [lra |].
      by apply Rinv_neq_0_compat. }
    rewrite !float_div_ok by assumption. simpl.
    f_equal. apply complex_eq; simpl.
    + simpl in Hp. field_simplify_eq; [unfold s; ring | repeat split; try lra].
      intros Hc. apply Hp. field_simplify_eq; [| split; lra]. lra.
    + simpl in Hp. field_simplify_eq; [unfold s; ring | repeat split; try lra].
      intros Hc. apply Hp. field_simplify_eq; [| split; lra]. lra.
Qed.

Lemma serial_parallel_round_trip_witness :
  (exists q, parallel_to_serial (Complex 3 4) = Ok q /\
             serial_to_parallel q = Ok (of_complex (Complex 3 4))) /\
  (exists p, serial_to_parallel (Complex 3 4) = Ok (of_complex p) /\
             parallel_to_serial p = Ok (Complex 3 4)).
Proof. apply (serial_parallel_round_trip (Complex 3 4)); simpl; lra. Defined.

(** X7: [serial_to_parallel] never raises; the real slot of its result is
    [+inf] exactly when [Re(z) == 0], the imaginary slot is [+inf] exactly
    when [Im(z) == 0], and no slot is ever [-inf]. *)
Theorem serial_to_parallel_total (z : complex) :
  exists re im,
    serial_to_parallel z = Ok (VComplex re im) /\
    (re = PInf <-> real z = 0) /\ (im = PInf <-> imag z = 0) /\
    re <> NInf /\ im <> NInf.
Proof.
  destruct z as [x y]. unfold serial_to_parallel. cbn [real imag].
  assert (Hc : forall s : R, 0 <= s -> copysign_inf s = PInf).
  { intros s Hs. unfold copysign_inf. by rewrite (proj2 (float_leb_le _ _)). }
  assert (Hs : 0 <= x ^ 2 + y ^ 2) by nra.
  rewrite (Hc _ Hs).
  destruct (Req_dec_T x 0) as [Hx | Hx], (Req_dec_T y 0) as [Hy | Hy];
    try (apply float_eqb_eq in Hx as Hbx); try (apply float_eqb_eq in Hy as Hby);
    try (apply float_eqb_neq in Hx as Hbx); try (apply float_eqb_neq in Hy as Hby);
    rewrite Hbx, Hby; simpl; rewrite ?float_div_ok by assumption; simpl;
    do 2 eexists; (split; [reflexivity |]); repeat split; done.
Qed.

(** X8: for a positive frequency and a reactance that is not zero, the
    capacitive and the inductive equivalent are both finite, their product
    is [-1/(2 pi f)^2], and exactly one of them is positive: the capacitance
    when [Im(z) < 0], the inductance when [Im(z) > 0]. *)
Theorem capacitance_inductance_dual (z : complex) (f : R) :
  0 < f -> imag z <> 0 ->
  exists c l,
    impedance_to_capacitance z f = Ok (Fin c) /\
    impedance_to_inductance z f = Ok (VFloat (Fin l)) /\
    c * l * (2 * PI * f) ^ 2 = - 1 /\
    (0 < c <-> imag z < 0) /\ (0 < l <-> 0 < imag z).
Proof.
  intros Hf Hz. pose proof PI_RGT_0 as Hpi.
  assert (Hw : 0 < f * 2 * PI) by nra.
  unfold impedance_to_capacitance, impedance_to_inductance.
  rewrite (proj2 (float_eqb_neq f 0)) by lra.
  rewrite (proj2 (float_eqb_neq (imag z) 0)) by assumption.
  assert (Hp : f * 2 * PI * imag z <> 0).
  { apply Rmult_integral_contrapositive_currified; [lra | assumption]. }
  rewrite !float_div_ok by lra. simpl.
  do 2 eexists. split; [reflexivity |]. split; [reflexivity |].
  split; [field; lra |].
  assert (Hinv : 0 < / (f * 2 * PI)) by (by apply Rinv_0_lt_compat).
  split.
  - replace (- (1 / (f * 2 * PI * imag z))) with (/ (f * 2 * PI) * (- / imag z))
      by (field; lra).
    split; intros H.
    + destruct (Rlt_dec (imag z) 0) as [| Hn]; [done |].
      assert (0 < imag z) by lra.
      assert (0 < / imag z) by (by apply Rinv_0_lt_compat). nra.
    + assert (0 < / - imag z) by (apply Rinv_0_lt_compat; lra).
      replace (- / imag z) with (/ - imag z) by (field; lra). nra.
  - unfold Rdiv. split; intros H; nra.
Qed.

Lemma capacitance_inductance_dual_witness :
  exists c l,
    impedance_to_capacitance (Complex 50 (-10)) 1000000 = Ok (Fin c) /\
    impedance_to_inductance (Complex 50 (-10)) 1000000 = Ok (VFloat (Fin l)) /\
    c * l * (2 * PI * 1000000) ^ 2 = - 1 /\
    (0 < c <-> -10 < 0) /\ (0 < l <-> 0 < -10).
Proof.
  apply (capacitance_inductance_dual (Complex 50 (-10)) 1000000); simpl; lra.
Defined.

(** X9: [impedance_to_norm] raises [ZeroDivisionError] exactly when
    [ref_impedance == 0]; otherwise [norm_to_impedance] turns its result
    back into the impedance. *)
Theorem impedance_norm_round_trip (z : complex) (ref_impedance : R) :
  (ref_impedance = 0 <-> impedance_to_norm z ref_impedance = Raise ZeroDivisionError) /\
  (ref_impedance <> 0 ->
   exists n, impedance_to_norm z ref_impedance = Ok n /\
             norm_to_impedance n ref_impedance = z).
Proof.
  assert (Hok : ref_impedance <> 0 ->
                exists n, impedance_to_norm z ref_impedance = Ok n /\
                          norm_to_impedance n ref_impedance = z).
  { intros Hz. unfold impedance_to_norm.
    rewrite c_div_ok by (unfold of_real; congruence).
    eexists. split; [reflexivity |].
    destruct z as [x y]. unfold norm_to_impedance, c_mul, of_real. simpl.
    apply complex_eq; simpl; field; lra. }
  split; [| exact Hok]. split.
  - intros ->. apply c_div_zero.
  - intros Hr. destruct (Req_dec_T ref_impedance 0) as [| Hz]; [done |].
    destruct (Hok Hz) as (n & Hn & _). congruence.
Qed.

Lemma impedance_norm_round_trip_witness :
  exists n, impedance_to_norm (Complex 75 10) 50 = Ok n /\
            norm_to_impedance n 50 = Complex 75 10.
Proof. apply (proj2 (impedance_norm_round_trip (Complex 75 10) 50)). lra. Defined.
End EquivalentFacts.

(** ** Gain, standing-wave ratio and Q factor *)

Section MoreDatapointFacts.
Local Open Scope R_scope.

Lemma c_abs_zero (a : complex) : c_abs a = 0 <-> a = Complex 0 0.
Proof.
  destruct a as [x y]. unfold c_abs. simpl. split.
  - intros H. apply sqrt_eq_0 in H; [| nra]. f_equal; nra.
  - intros [= -> ->]. replace (0 * 0 + 0 * 0) with 0 by ring. apply sqrt_0.
Qed.

Lemma ln_10_pos : 0 < ln 10.
Proof. rewrite <- ln_1. apply ln_increasing; lra. Qed.

(** X10: [gain] is [-inf] exactly for [z == 0]; any other gain is a finite
    number of dB that is negative, zero or positive as [|z|] is below, at
    or above 1. *)
Theorem gain_sign (dp : Datapoint.t) :
  (Datapoint.gain dp = NInf <-> Datapoint.z dp = Complex 0 0) /\
  (Datapoint.z dp <> Complex 0 0 ->
   exists g, Datapoint.gain dp = Fin g /\
     (g < 0 <-> c_abs (Datapoint.z dp) < 1) /\
     (g = 0 <-> c_abs (Datapoint.z dp) = 1) /\
     (0 < g <-> 1 < c_abs (Datapoint.z dp))).
Proof.
  pose proof ln_10_pos as H10.
  pose proof (sqrt_pos (real (Datapoint.z dp) * real (Datapoint.z dp)
                        + imag (Datapoint.z dp) * imag (Datapoint.z dp))) as Hm.
  fold (c_abs (Datapoint.z dp)) in Hm.
  assert (Hpos : Datapoint.z dp <> Complex 0 0 -> 0 < c_abs (Datapoint.z dp)).
  { intros Hz. destruct (Req_dec_T (c_abs (Datapoint.z dp)) 0) as [H0 | H0]; [| lra].
    by apply c_abs_zero in H0. }
  unfold Datapoint.gain. split.
  - split.
    + destruct (float_ltb 0 (c_abs (Datapoint.z dp))) eqn:Hb; [discriminate |].
      intros _. apply float_ltb_ge in Hb. apply c_abs_zero. lra.
    + intros Hz. apply c_abs_zero in Hz. rewrite Hz.
      by rewrite (proj2 (float_ltb_ge 0 0)) by lra.
  - intros Hz. specialize (Hpos Hz).
    rewrite (proj2 (float_ltb_lt _ _) Hpos). eexists. split; [reflexivity |].
    set (m := c_abs (Datapoint.z dp)) in *.
    assert (Hinv : 0 < / ln 10) by (by apply Rinv_0_lt_compat).
    assert (Hlt : ln m < 0 <-> m < 1).
    { split; intros H.
      - apply ln_lt_inv; [done | lra |]. by rewrite ln_1.
      - rewrite <- ln_1. by apply ln_increasing. }
    assert (Hgt : 0 < ln m <-> 1 < m).
    { split; intros H.
      - apply ln_lt_inv; [lra | done |]. by rewrite ln_1.
      - rewrite <- ln_1. apply ln_increasing; lra. }
    assert (Heq : ln m = 0 <-> m = 1).
    { split; intros H.
      - apply ln_inv; [done | lra |]. by rewrite ln_1.
      - rewrite H. apply ln_1. }
    unfold Rdiv. repeat split; intros H.
    + apply Hlt. nra.
    + apply Hlt in H. nra.
    + apply Heq. nra.
    + apply Heq in H. rewrite H. ring.
    + apply Hgt. nra.
    + apply Hgt in H. nra.
Qed.

Lemma gain_sign_witness :
  exists g, Datapoint.gain (Datapoint.mk 1000000 1 0) = Fin g /\
    (g < 0 <-> c_abs (Datapoint.z (Datapoint.mk 1000000 1 0)) < 1) /\
    (g = 0 <-> c_abs (Datapoint.z (Datapoint.mk 1000000 1 0)) = 1) /\
    (0 < g <-> 1 < c_abs (Datapoint.z (Datapoint.mk 1000000 1 0))).
Proof.
  apply (proj2 (gain_sign (Datapoint.mk 1000000 1 0))).
  intros [= H]. lra.
Defined.

(** X11: for [|z| < 1] the standing-wave ratio is a float not below 1, and
    it is 1 only for [z == 0]. *)
Theorem vswr_at_least_1 (dp : Datapoint.t) :
  c_abs (Datapoint.z dp) < 1 ->
  exists v, Datapoint.vswr dp = Ok (VFloat (Fin v)) /\
    1 <= v /\ (v = 1 <-> Datapoint.z dp = Complex 0 0).
Proof.
  intros Hm. pose proof (sqrt_pos (real (Datapoint.z dp) * real (Datapoint.z dp)
                        + imag (Datapoint.z dp) * imag (Datapoint.z dp))) as H0.
  fold (c_abs (Datapoint.z dp)) in H0.
  pose proof (c_abs_zero (Datapoint.z dp)) as Hzero. unfold Datapoint.vswr.
  set (m := c_abs (Datapoint.z dp)) in *.
  rewrite (proj2 (float_eqb_neq m 1)) by lra.
  rewrite float_div_ok by lra. simpl. eexists. split; [reflexivity |].
  assert (Hinv : 0 < / (1 - m)) by (apply Rinv_0_lt_compat; lra).
  assert (Hv : (1 + m) / (1 - m) = 1 + 2 * m * / (1 - m)) by (field; lra).
  rewrite Hv. split; [nra |]. rewrite <- Hzero. split; intros H.
  - assert (2 * m * / (1 - m) = 0) as Hp by lra.
    apply Rmult_integral in Hp as [Hp | Hp]; lra.
  - rewrite H. ring.
Qed.

Lemma vswr_at_least_1_witness :
  exists v, Datapoint.vswr (Datapoint.mk 1000000 0 0) = Ok (VFloat (Fin v)) /\
    1 <= v /\ (v = 1 <-> Datapoint.z (Datapoint.mk 1000000 0 0) = Complex 0 0).
Proof.
  apply vswr_at_least_1. unfold c_abs. simpl.
  replace (0 * 0 + 0 * 0) with 0 by ring. rewrite sqrt_0. lra.
Defined.

(** X12: [qFactor] never raises and never gives nan.  For [z == 1] (an open
    circuit, impedance [inf]) it returns [0.0]; otherwise it returns the
    sentinel [-1] exactly when the reference is zero or [|z| == 1], and else
    [|2 Im(z) / (1 - |z|^2)|], which does not depend on the reference. *)
Theorem qFactor_cases (dp : Datapoint.t) (ref_impedance : R) :
  let g := Datapoint.z dp in
  let n := real g * real g + imag g * imag g in
  (g = Complex 1 0 -> qFactor dp ref_impedance = Ok (Num (VFloat (Fin 0)))) /\
  (g <> Complex 1 0 -> ref_impedance = 0 \/ n = 1 ->
   qFactor dp ref_impedance = Ok (Num (VInt (-1)))) /\
  (g <> Complex 1 0 -> ref_impedance <> 0 -> n <> 1 ->
   qFactor dp ref_impedance = Ok (Num (VFloat (Fin (Rabs (2 * imag g / (1 - n))))))).
Proof.
  destruct dp as [fq a b]. unfold qFactor, Datapoint.impedance, Datapoint.z.
  cbn [Datapoint.re Datapoint.im real imag].
  split; [| split].
  - intros [= -> ->]. unfold gamma_to_impedance, c_sub at 2. simpl.
    replace (1 - 1) with 0 by ring. replace (0 - 0) with 0 by ring.
    rewrite c_div_zero. simpl. by rewrite Rabs_R0.
  - intros Hg Hz. rewrite (gamma_to_impedance_parts _ ref_impedance Hg). simpl.
    rewrite (proj2 (float_eqb_eq _ 0)); [reflexivity |].
    destruct Hz as [Hz | Hz].
    + rewrite Hz. unfold Rdiv. ring.
    + replace (1 - a * a - b * b) with (1 - (a * a + b * b)) by ring.
      rewrite Hz. unfold Rdiv. ring.
  - intros Hg Hz Hn. rewrite (gamma_to_impedance_parts _ ref_impedance Hg). simpl.
    pose proof (one_minus_gamma_pos a b Hg) as Hd.
    set (d := (a - 1) * (a - 1) + b * b) in *.
    assert (Hr : ref_impedance * (1 - a * a - b * b) / d <> 0).
    { unfold Rdiv. repeat apply Rmult_integral_contrapositive_currified;
        [assumption | lra | apply Rinv_neq_0_compat; lra]. }
    rewrite (proj2 (float_eqb_neq _ 0) Hr). simpl.
    rewrite float_div_ok by assumption. simpl.
    do 5 f_equal. field. repeat split; lra.
Qed.

Lemma qFactor_cases_witness :
  qFactor (Datapoint.mk 1000000 1 0) 50 = Ok (Num (VFloat (Fin 0))) /\
  qFactor (Datapoint.mk 1000000 0 1) 50 = Ok (Num (VInt (-1))).
Proof.
  split.
  - apply (proj1 (qFactor_cases (Datapoint.mk 1000000 1 0) 50)). reflexivity.
  - apply (proj1 (proj2 (qFactor_cases (Datapoint.mk 1000000 0 1) 50))).
    + intros [= H]. lra.
    + right. simpl. ring.
Defined.
End MoreDatapointFacts.

(** ** Attenuation correction and group delay at the ends *)

Section MoreListFacts.
Local Open Scope R_scope.

Lemma float_pow_10_pos (x : R) : 0 < float_pow 10 x.
Proof. unfold float_pow, Rpower. apply exp_pos. Qed.

Lemma float_pow_10_add (a b : R) :
  float_pow 10 ((a + b) / 20) = float_pow 10 (a / 20) * float_pow 10 (b / 20).
Proof.
  unfold float_pow. rewrite <- Rpower_plus. f_equal. field.
Qed.

(** X13: correcting by [a] dB and then by [b] dB, both positive, is
    correcting once by [a + b] dB. *)
Theorem corr_att_data_compose (data : list Datapoint.t) (a b : R) :
  0 < a -> 0 < b ->
  corr_att_data (corr_att_data data a) b = corr_att_data data (a + b).
Proof.
  intros Ha Hb. unfold corr_att_data.
  rewrite !(proj2 (float_leb_gt _ 0)) by lra.
  rewrite float_pow_10_add. rewrite <- list_fmap_compose.
  apply list_fmap_ext. intros i [fq x y] _. simpl. f_equal; ring.
Qed.

Lemma corr_att_data_compose_witness :
  corr_att_data (corr_att_data [Datapoint.mk 1 3 4] 6) 14 =
  corr_att_data [Datapoint.mk 1 3 4] (6 + 14).
Proof. apply corr_att_data_compose; lra. Defined.

(** X14: a correction by [att > 0] dB raises the gain of every sample
    with [z != 0] by exactly [att] dB, and leaves a gain of [-inf] as it
    is. *)
Theorem corr_att_data_gain (data : list Datapoint.t) (att : R) (i : nat)
    (dp : Datapoint.t) :
  0 < att -> data !! i = Some dp ->
  exists dp', corr_att_data data att !! i = Some dp' /\
    match Datapoint.gain dp with
    | Fin g => Datapoint.gain dp' = Fin (g + att)
    | other => Datapoint.gain dp' = other
    end.
Proof.
  intros Ha Hi. rewrite corr_att_data_lookup, Hi by assumption.
  cbn [fmap option_fmap option_map].
  eexists. split; [reflexivity |].
  pose proof (float_pow_10_pos (att / 20)) as Hk.
  set (k := float_pow 10 (att / 20)) in *.
  unfold Datapoint.gain.
  change (Datapoint.z (Datapoint.mk (Datapoint.freq dp) (Datapoint.re dp * k)
                         (Datapoint.im dp * k)))
    with (Complex (real (Datapoint.z dp) * k) (imag (Datapoint.z dp) * k)).
  rewrite (c_abs_scale (Datapoint.z dp) k) by lra.
  pose proof (sqrt_pos (real (Datapoint.z dp) * real (Datapoint.z dp)
                        + imag (Datapoint.z dp) * imag (Datapoint.z dp))) as Hm.
  fold (c_abs (Datapoint.z dp)) in Hm.
  set (m := c_abs (Datapoint.z dp)) in *.
  destruct (float_ltb 0 m) eqn:Hb.
  - apply float_ltb_lt in Hb.
    rewrite (proj2 (float_ltb_lt 0 (k * m))) by nra.
    f_equal. rewrite ln_mult by lra.
    assert (Hlk : ln k = att / 20 * ln 10).
    { unfold k, float_pow, Rpower. apply ln_exp. }
    rewrite Hlk. pose proof ln_10_pos. field. lra.
  - apply float_ltb_ge in Hb. assert (m = 0) as -> by lra.
    by rewrite (proj2 (float_ltb_ge 0 (k * 0))) by lra.
Qed.

Lemma corr_att_data_gain_witness :
  exists dp', corr_att_data [Datapoint.mk 1 0 0] 20 !! 0%nat = Some dp' /\
    match Datapoint.gain (Datapoint.mk 1 0 0) with
    | Fin g => Datapoint.gain dp' = Fin (g + 20)
    | other => Datapoint.gain dp' = other
    end.
Proof. apply corr_att_data_gain; [lra | reflexivity]. Defined.

(** X15: on a non-empty list, an index below [0] or past the end does not
    raise: both clamped indices fall on the same end sample and
    [groupDelay] returns [0]; so does every index on a one-sample list. *)
Theorem groupDelay_outside (data : list Datapoint.t) (index : Z) :
  data <> [] ->
  (index < 0)%Z \/ (Z.of_nat (length data) <= index)%Z \/ length data = 1%nat ->
  groupDelay data index = Ok (VInt 0).
Proof.
  intros Hne Hout.
  set (n := Z.of_nat (length data)).
  assert (Hn : (1 <= n)%Z) by (subst n; destruct data; [done | simpl; lia]).
  assert (Hsame : clamp_value (index - 1) 0 (n - 1) = clamp_value (index + 1) 0 (n - 1)).
  { unfold clamp_value.
    destruct (Z.ltb_spec (index - 1) 0), (Z.ltb_spec (index + 1) 0),
      (Z.ltb_spec (n - 1) (index - 1)), (Z.ltb_spec (n - 1) (index + 1)); lia. }
  pose proof (clamp_value_range (index + 1) 0 (n - 1)) as Hr.
  destruct (list_get_in_range data (clamp_value (index + 1) 0 (n - 1)))
    as (d & _ & Hd); [subst n; lia |].
  unfold groupDelay. fold n. rewrite Hsame, Hd. simpl.
  by rewrite Z.sub_diag.
Qed.

Lemma groupDelay_outside_witness :
  groupDelay [Datapoint.mk 1 1 0; Datapoint.mk 2 0 1] 7 = Ok (VInt 0).
Proof. apply groupDelay_outside; [discriminate | simpl; lia]. Defined.
End MoreListFacts.

(** ** Stored entries: iteration, bounds, overwriting *)

Section DataSetQueryFacts.
Import DataSet DataSetQueries.
Local Open Scope R_scope.

Lemma traverse_ok {A B : Type} (f : A -> res B) (g : A -> B) (l : list A) :
  (forall a, a ∈ l -> f a = Ok (g a)) -> traverse f l = Ok (g <$> l).
Proof.
  induction l as [| a l IH]; intros H; [reflexivity |].
  simpl. rewrite (H a) by (by left). simpl.
  rewrite IH by (intros b Hb; apply H; by right). reflexivity.
Qed.

Lemma strictly_sorted (l : list Z) :
  StronglySorted Z.le l -> NoDup l -> StronglySorted Z.lt l.
Proof.
  induction 1 as [| x l Hs IH Hx]; intros Hnd; [constructor |].
  apply NoDup_cons in Hnd as [Hin Hnd]. constructor; [by apply IH |].
  rewrite Forall_forall in Hx |- *. intros y Hy.
  assert (x <> y) by (intros ->; done). specialize (Hx y Hy). lia.
Qed.

Lemma sorted_keys_spec (self : t) :
  StronglySorted Z.lt (sorted_keys self) /\
  (forall f, f ∈ sorted_keys self <-> is_Some (data self !! f)) /\
  length (sorted_keys self) = size (data self).
Proof.
  unfold sorted_keys.
  pose proof (merge_sort_Permutation Z.le (map_to_list (data self)).*1) as Hp.
  split; [| split].
  - apply strictly_sorted.
    + apply StronglySorted_merge_sort; apply _.
    + rewrite Hp. apply NoDup_fst_map_to_list.
  - intros f. rewrite Hp, list_elem_of_fmap. split.
    + intros ([f' v] & -> & Hin). apply elem_of_map_to_list in Hin. eauto.
    + intros [v Hv]. exists (f, v). split; [done |]. by apply elem_of_map_to_list.
  - rewrite Hp, length_fmap. apply length_map_to_list.
Qed.

Lemma items_complex_rows (self : t) :
  items_complex self = Ok ((fun f => (f, data self !!! f)) <$> sorted_keys self).
Proof.
  unfold items_complex. apply traverse_ok. intros f Hf.
  apply sorted_keys_spec in Hf as [v Hv]. unfold dict_get.
  rewrite Hv. simpl. by rewrite (lookup_total_correct _ _ _ Hv).
Qed.

(** X16: [items_complex] never raises; it yields every stored entry
    exactly once, in strictly ascending order of frequency. *)
Theorem items_complex_sorted (self : t) :
  exists rows,
    items_complex self = Ok rows /\
    rows.*1 = sorted_keys self /\
    StronglySorted Z.lt rows.*1 /\
    length rows = size (data self) /\
    (forall f v, (f, v) ∈ rows <-> data self !! f = Some v).
Proof.
  eexists. split; [apply items_complex_rows |].
  destruct (sorted_keys_spec self) as (Hs & Hin & Hlen).
  assert (Hfst : ((fun f => (f, data self !!! f)) <$> sorted_keys self).*1
                 = sorted_keys self).
  { rewrite <- list_fmap_compose. apply list_fmap_id. }
  rewrite Hfst. split; [done |]. split; [done |]. split.
  - by rewrite length_fmap.
  - intros f v. rewrite list_elem_of_fmap. split.
    + intros (f' & [= -> ->] & Hf). apply Hin in Hf as [v Hv].
      by rewrite (lookup_total_correct _ _ _ Hv).
    + intros Hv. exists f. split.
      * by rewrite (lookup_total_correct _ _ _ Hv).
      * apply Hin. eauto.
Qed.

Lemma items_rows (self : t) :
  items self = Ok ((fun f => datapoint_of f <$> data self !!! f) <$> sorted_keys self).
Proof.
  unfold items. apply traverse_ok. intros f Hf.
  apply sorted_keys_spec in Hf as [v Hv]. unfold dict_get.
  rewrite Hv. simpl. by rewrite (lookup_total_correct _ _ _ Hv).
Qed.

Lemma datapoint_of_z (f : Z) (dps : list Datapoint.t) :
  Forall (fun dp => Datapoint.freq dp = f) dps ->
  datapoint_of f <$> (Datapoint.z <$> dps) = dps.
Proof.
  induction 1 as [| [fq a b] l Hf _ IH]; [reflexivity |].
  rewrite !fmap_cons, IH. simpl in Hf. by rewrite <- Hf.
Qed.

(** X17: a successful [insert] is read back by [items]: the list it yields
    afterwards contains exactly the datapoints inserted, as the entry of
    their frequency, and the entries of all other frequencies are as
    before. *)
Theorem insert_items_round_trip (self : t) (datapoints : list Datapoint.t) :
  length datapoints = length (fields self) -> share_one_freq datapoints ->
  exists f self' rows,
    insert datapoints self = (Ok tt, self') /\
    Forall (fun dp => Datapoint.freq dp = f) datapoints /\
    items self' = Ok rows /\
    datapoints ∈ rows /\
    (forall f', f' <> f -> data self' !! f' = data self !! f').
Proof.
  intros Hl (f & Hne & Hall). exists f. do 2 eexists.
  split; [by apply insert_stores |]. split; [done |].
  split; [apply items_rows |]. simpl. split.
  - apply list_elem_of_fmap. exists f. split.
    + by rewrite lookup_total_insert_eq, datapoint_of_z.
    + apply sorted_keys_spec. simpl. rewrite lookup_insert_eq. eauto.
  - intros f' Hf'. by rewrite lookup_insert_ne.
Qed.

Lemma insert_items_round_trip_witness :
  exists f self' rows,
    insert (sample 5 1 1) (init default_fields) = (Ok tt, self') /\
    Forall (fun dp => Datapoint.freq dp = f) (sample 5 1 1) /\
    items self' = Ok rows /\
    sample 5 1 1 ∈ rows /\
    (forall f', f' <> f -> data self' !! f' = data (init default_fields) !! f').
Proof.
  apply insert_items_round_trip; [reflexivity |].
  exists 5%Z. split; [discriminate |]. repeat constructor.
Defined.

(** X18: inserting at a frequency replaces what an earlier insert stored
    there: two successful inserts at one frequency leave the object as the
    second one alone does, and the number of entries grows by one only when
    the frequency was not stored before. *)
Theorem insert_overwrites (self : t) (first second : list Datapoint.t) (f : Z) :
  length first = length (fields self) -> length second = length (fields self) ->
  first <> [] -> second <> [] ->
  Forall (fun dp => Datapoint.freq dp = f) first ->
  Forall (fun dp => Datapoint.freq dp = f) second ->
  (insert first;; insert second) self = insert second self /\
  size (data (insert second self).2) =
    match data self !! f with
    | Some _ => size (data self)
    | None => S (size (data self))
    end.
Proof.
  intros Hl1 Hl2 Hn1 Hn2 Hf1 Hf2.
  unfold mbind at 1, M_bind. rewrite (insert_stores first self f) by assumption.
  rewrite (insert_stores second self f) by assumption.
  rewrite (insert_stores second _ f) by assumption. simpl. split.
  - by rewrite insert_insert_eq.
  - destruct (data self !! f) as [v |] eqn:Hv.
    + rewrite <- (insert_delete_id (data self) f v Hv) at 1.
      rewrite insert_insert_eq.
      rewrite <- (insert_delete_id (data self) f v Hv) at 2.
      by rewrite !map_size_insert_None by apply lookup_delete_eq.
    + by apply map_size_insert_None.
Qed.

Lemma insert_overwrites_witness :
  (insert (sample 5 1 1);; insert (sample 5 2 2)) (init default_fields)
  = insert (sample 5 2 2) (init default_fields) /\
  size (data (insert (sample 5 2 2) (init default_fields)).2) =
    match data (init default_fields) !! 5%Z with
    | Some _ => size (data (init default_fields))
    | None => S (size (data (init default_fields)))
    end.
Proof.
  apply (insert_overwrites (init default_fields) (sample 5 1 1) (sample 5 2 2) 5);
    try reflexivity; try discriminate; repeat constructor.
Defined.

Lemma foldl_min_spec (l : list Z) (x : Z) :
  foldl Z.min x l ∈ x :: l /\ Forall (fun y => (foldl Z.min x l <= y)%Z) (x :: l).
Proof.
  revert x. induction l as [| y l IH]; intros x; simpl.
  - split; [by left | by constructor].
  - destruct (IH (Z.min x y)) as [Hin Hall].
    apply Forall_cons in Hall as [Hm Hall]. split.
    + apply elem_of_cons in Hin as [-> | Hin].
      * destruct (Z.min_spec x y) as [[_ ->] | [_ ->]]; [by left | right; by left].
      * right. by right.
    + constructor; [lia |]. constructor; [lia | done].
Qed.

Lemma foldl_max_spec (l : list Z) (x : Z) :
  foldl Z.max x l ∈ x :: l /\ Forall (fun y => (y <= foldl Z.max x l)%Z) (x :: l).
Proof.
  revert x. induction l as [| y l IH]; intros x; simpl.
  - split; [by left | by constructor].
  - destruct (IH (Z.max x y)) as [Hin Hall].
    apply Forall_cons in Hall as [Hm Hall]. split.
    + apply elem_of_cons in Hin as [-> | Hin].
      * destruct (Z.max_spec x y) as [[_ ->] | [_ ->]]; [right; by left | by left].
      * right. by right.
    + constructor; [lia |]. constructor; [lia | done].
Qed.

Lemma elem_of_keys (self : t) (f : Z) : f ∈ keys self <-> is_Some (data self !! f).
Proof.
  unfold keys. rewrite list_elem_of_fmap. split.
  - intros ([f' v] & -> & Hin). apply elem_of_map_to_list in Hin. eauto.
  - intros [v Hv]. exists (f, v). split; [done |]. by apply elem_of_map_to_list.
Qed.

(** X19: [min_freq] and [max_freq] raise [ValueError] exactly when nothing
    is stored; otherwise each returns a stored frequency, and every stored
    frequency lies between the two. *)
Theorem min_max_freq_bounds (self : t) :
  (data self = ∅ <-> min_freq self = Fail ValueError) /\
  (data self = ∅ <-> max_freq self = Fail ValueError) /\
  (data self <> ∅ ->
   exists lo hi,
     min_freq self = Return lo /\ max_freq self = Return hi /\
     is_Some (data self !! lo) /\ is_Some (data self !! hi) /\
     forall f, is_Some (data self !! f) -> (lo <= f <= hi)%Z).
Proof.
  unfold min_freq, max_freq.
  pose proof (elem_of_keys self) as Hk.
  assert (He : data self = ∅ <-> keys self = []).
  { unfold keys. rewrite <- map_to_list_empty_iff. split.
    - by intros ->.
    - apply fmap_nil_inv. }
  destruct (keys self) as [| x l] eqn:Hkeys; simpl.
  - split; [| split]; [split; [done | intros _; by apply He]..|].
    intros Hne. exfalso. by apply Hne, He.
  - split; [| split].
    + split; [intros H; by apply He in H | done].
    + split; [intros H; by apply He in H | done].
    + intros _. destruct (foldl_min_spec l x) as [Hmin Hle].
      destruct (foldl_max_spec l x) as [Hmax Hge].
      do 2 eexists. split; [reflexivity |]. split; [reflexivity |].
      split; [by apply Hk |]. split; [by apply Hk |].
      intros f Hf. apply Hk in Hf. rewrite Forall_forall in Hle, Hge.
      split; [by apply Hle | by apply Hge].
Qed.

Lemma min_max_freq_bounds_witness :
  exists lo hi,
    min_freq (insert (sample 5 1 1) (init default_fields)).2 = Return lo /\
    max_freq (insert (sample 5 1 1) (init default_fields)).2 = Return hi /\
    is_Some (data (insert (sample 5 1 1) (init default_fields)).2 !! lo) /\
    is_Some (data (insert (sample 5 1 1) (init default_fields)).2 !! hi) /\
    forall f, is_Some (data (insert (sample 5 1 1) (init default_fields)).2 !! f) ->
              (lo <= f <= hi)%Z.
Proof.
  apply (proj2 (proj2 (min_max_freq_bounds _))).
  intros H. apply (f_equal (fun m => m !! 5%Z)) in H. vm_compute in H. discriminate.
Defined.
End DataSetQueryFacts.

(** ** Building the interpolators and reading them *)

Section InterpolationFacts.
Import DataSet DataSetQueries.
Local Open Scope R_scope.

Lemma list_get_nat {A : Type} (l : list A) (i : nat) (a : A) :
  l !! i = Some a -> list_get l (Z.of_nat i) = Ok a.
Proof.
  intros Hi. pose proof (lookup_lt_Some _ _ _ Hi) as Hlt.
  destruct (list_get_in_range l (Z.of_nat i)) as (b & Hb & ->); [lia |].
  rewrite Nat2Z.id in Hb. congruence.
Qed.

Lemma list_get_head {A : Type} (l : list A) (a : A) :
  head l = Some a -> list_get l 0 = Ok a.
Proof. destruct l; [done |]. by intros [= ->]. Qed.

Lemma list_get_last {A : Type} (l : list A) (a : A) :
  last l = Some a -> list_get l (-1) = Ok a.
Proof.
  intros Hl. rewrite last_lookup in Hl.
  pose proof (lookup_lt_Some _ _ _ Hl) as Hlt.
  unfold list_get. simpl.
  rewrite (proj2 (Z.leb_le _ _)), (proj2 (Z.ltb_lt _ _)) by lia. simpl.
  replace (Z.to_nat (-1 + Z.of_nat (length l))) with (pred (length l)) by lia.
  by rewrite Hl.
Qed.

Lemma rows_of_lookup (self : t) (f : Z) (row : list complex) :
  (f, row) ∈ rows_of self <-> data self !! f = Some row.
Proof.
  unfold rows_of. rewrite list_elem_of_fmap. split.
  - intros (f' & [= -> ->] & Hf). apply sorted_keys_spec in Hf as [v Hv].
    by rewrite (lookup_total_correct _ _ _ Hv).
  - intros Hv. exists f. split.
    + by rewrite (lookup_total_correct _ _ _ Hv).
    + apply sorted_keys_spec. eauto.
Qed.

Lemma rows_of_nil (self : t) : rows_of self = [] <-> data self = ∅.
Proof.
  destruct (sorted_keys_spec self) as (_ & _ & Hlen).
  unfold rows_of. split.
  - intros H. apply fmap_nil_inv in H. rewrite H in Hlen.
    symmetry in Hlen. by apply map_size_empty_iff.
  - intros H. rewrite H, map_size_empty in Hlen.
    apply nil_length_inv in Hlen. by rewrite Hlen.
Qed.

Lemma gen_field_empty (i : nat) (self : t) :
  data self = ∅ -> gen_field i self = (Raise IndexError, self).
Proof.
  intros He. unfold gen_field, mbind, M_bind, get, lift.
  rewrite items_complex_rows. fold (rows_of self).
  by rewrite (proj2 (rows_of_nil self) He).
Qed.

Lemma gen_field_ok (i : nat) (self : t) :
  well_formed self -> data self <> ∅ -> (i < length (fields self))%nat ->
  gen_field i self =
    (Ok tt, mk (fields self) (data self)
               (interp self ++ [built_pair (rows_of self) i]) (inter_valid self)).
Proof.
  intros Hwf Hne Hi. unfold gen_field, mbind, M_bind, get, lift.
  rewrite items_complex_rows. fold (rows_of self).
  assert (Hrows : rows_of self <> []) by (by rewrite rows_of_nil).
  set (rows := rows_of self) in *.
  rewrite (traverse_ok _ (fun it => default (Complex 0 0) (it.2 !! i)) rows).
  2: { intros [f row] Hin. apply rows_of_lookup in Hin. simpl.
       pose proof (Hwf f row Hin) as Hlen. simpl in Hlen.
       destruct (lookup_lt_is_Some_2 row i) as [z Hz]; [lia |].
       rewrite Hz. simpl. by apply list_get_nat. }
  unfold built_pair, interp_append.
  set (col := (fun it => default (Complex 0 0) (it.2 !! i)) <$> rows).
  assert (Hcol : col <> []).
  { unfold col. intros H. by apply fmap_nil_inv in H. }
  assert (Hhead : forall (h : complex -> R),
             list_get (h <$> col) 0 = Ok (default 0 (head (h <$> col)))).
  { intros h. destruct col; [done | reflexivity]. }
  assert (Hlast : forall (h : complex -> R),
             list_get (h <$> col) (-1) = Ok (default 0 (last (h <$> col)))).
  { intros h. destruct (last (h <$> col)) as [r |] eqn:Hl.
    - by apply list_get_last.
    - apply last_None in Hl. apply fmap_nil_inv in Hl. done. }
  by rewrite !Hhead, !Hlast.
Qed.

Lemma for_each_gen_field_ok (l : list nat) (self : t) :
  well_formed self -> data self <> ∅ ->
  Forall (fun i => (i < length (fields self))%nat) l ->
  for_each l gen_field self =
    (Ok tt, mk (fields self) (data self)
               (interp self ++ (built_pair (rows_of self) <$> l)) (inter_valid self)).
Proof.
  intros Hwf Hne. revert self Hwf Hne.
  induction l as [| i l IH]; intros self Hwf Hne Hall.
  - simpl. rewrite app_nil_r. by destruct self.
  - apply Forall_cons in Hall as [Hi Hall]. simpl. unfold mbind, M_bind.
    rewrite gen_field_ok by assumption.
    rewrite IH; [| done | done | done].
    simpl. unfold rows_of, sorted_keys. simpl. by rewrite <- app_assoc.
Qed.

Lemma gen_interpolation_ok (self : t) :
  well_formed self -> data self <> ∅ ->
  gen_interpolation self =
    (Ok tt, mk (fields self) (data self) (interp self ++ fresh_cache self) true).
Proof.
  intros Hwf Hne. unfold gen_interpolation, mbind, M_bind, get.
  rewrite for_each_gen_field_ok; [done | done | done |].
  apply Forall_forall. intros i Hi. apply elem_of_seq in Hi. lia.
Qed.

(** X20: [gen_interpolation] on a DataSet with no entry and at least one
    field raises [IndexError] and leaves the object as it was; on a
    well-formed DataSet with two entries or more it returns, having
    appended to [interp] one pair of interpolators per field, built from the
    columns of [items_complex], and set [inter_valid]. *)
Theorem gen_interpolation_outcome (self : t) :
  (data self = ∅ -> fields self <> [] ->
   gen_interpolation self = (Raise IndexError, self)) /\
  (well_formed self -> (2 <= size (data self))%nat ->
   gen_interpolation self =
     (Ok tt, mk (fields self) (data self)
                (interp self
                 ++ (built_pair (rows_of self) <$> seq 0 (length (fields self))))
                true)).
Proof.
  split.
  - unfold gen_interpolation, mbind, M_bind, get.
    intros He Hf. destruct (fields self) as [| fld l] eqn:Hfl; [done |].
    simpl. unfold mbind, M_bind. by rewrite gen_field_empty.
  - intros Hwf Hsz. apply gen_interpolation_ok; [done |].
    intros He. rewrite He, map_size_empty in Hsz. lia.
Qed.

Lemma gen_interpolation_outcome_witness :
  gen_interpolation (init default_fields) = (Raise IndexError, init default_fields) /\
  (gen_interpolation (insert (sample 2 3 3) (insert (sample 1 1 1) (init default_fields)).2).2).1
    = Ok tt.
Proof.
  split.
  - apply (proj1 (gen_interpolation_outcome (init default_fields))); [reflexivity | done].
  - rewrite (proj2 (gen_interpolation_outcome _)); [reflexivity | | vm_compute; lia].
    apply insert_well_formed, insert_well_formed.
    unfold well_formed. apply map_Forall_empty.
Defined.

(** *** Evaluating an interpolator *)

Lemma zip_fmap_same {A B C : Type} (f : A -> B) (g : A -> C) (l : list A) :
  zip (f <$> l) (g <$> l) = (fun a => (f a, g a)) <$> l.
Proof. induction l as [| a l IH]; [done |]. csimpl. by rewrite IH. Qed.

Lemma segments_knot (pts : list (Z * R)) (k : nat) (x : Z) (y : R) :
  StronglySorted (fun p q : Z * R => (p.1 < q.1)%Z) pts ->
  pts !! S k = Some (x, y) -> segments pts (IZR x) = Some y.
Proof.
  revert k. induction pts as [| [x0 y0] pts IH]; intros k Hs Hk; [done |].
  destruct pts as [| [x1 y1] tl]; [done |].
  apply StronglySorted_inv in Hs as [Hs Hall].
  apply Forall_cons in Hall as [H01 _]. simpl in H01. apply IZR_lt in H01.
  cbn [segments]. destruct k as [| k].
  - injection Hk as -> ->.
    rewrite (proj2 (float_leb_le _ _)) by lra.
    f_equal. field. lra.
  - assert (H1x : IZR x1 < IZR x).
    { apply StronglySorted_inv in Hs as [_ Hall]. simpl in Hk.
      apply list_elem_of_lookup_2 in Hk. rewrite Forall_forall in Hall.
      apply IZR_lt, (Hall _ Hk). }
    rewrite (proj2 (float_leb_gt _ _)) by lra.
    by apply (IH k).
Qed.

Lemma segments_beyond (pts : list (Z * R)) (x : R) :
  Forall (fun p => IZR p.1 < x) pts -> segments pts x = None.
Proof.
  induction pts as [| [x0 y0] pts IH]; intros Hall; [done |].
  apply Forall_cons in Hall as [_ Hall].
  destruct pts as [| [x1 y1] tl]; [done |].
  cbn [segments]. pose proof Hall as Hall'.
  apply Forall_cons in Hall' as [H1 _]. simpl in H1.
  rewrite (proj2 (float_leb_gt _ _)) by lra. by apply IH.
Qed.

Lemma sorted_points {A : Type} (key : A -> Z) (h : A -> R) (rows : list A) :
  StronglySorted Z.lt (key <$> rows) ->
  StronglySorted (fun p q : Z * R => (p.1 < q.1)%Z) ((fun a => (key a, h a)) <$> rows).
Proof.
  induction rows as [| a rows IH]; intros Hs; [constructor |].
  rewrite fmap_cons in Hs. apply StronglySorted_inv in Hs as [Hs Hall].
  rewrite fmap_cons. constructor; [by apply IH |].
  rewrite Forall_fmap in Hall. rewrite Forall_fmap.
  eapply Forall_impl; [exact Hall |]. by intros b Hb.
Qed.

(** At a sampled abscissa an interpolator over two samples or more returns
    the sample. *)
Lemma call_at_knot {A : Type} (key : A -> Z) (h : A -> R) (rows : list A)
    (lo hi : R) (k : nat) (a : A) :
  StronglySorted Z.lt (key <$> rows) -> (2 <= length rows)%nat ->
  rows !! k = Some a ->
  call (Interp1d (key <$> rows) (h <$> rows) lo hi) (IZR (key a)) = h a.
Proof.
  intros Hs Hlen Hk. pose proof (sorted_points key h rows Hs) as Hpts.
  unfold call. cbn [xs ys fill_lo fill_hi]. rewrite zip_fmap_same.
  destruct rows as [| a0 [| a1 tl]]; simpl in Hlen; [lia | lia |].
  rewrite (fmap_cons key). rewrite !fmap_cons in Hs.
  apply StronglySorted_inv in Hs as [Hs Hall].
  destruct k as [| k].
  - injection Hk as ->.
    apply Forall_cons in Hall as [H01 _]. apply IZR_lt in H01.
    rewrite (proj2 (float_ltb_ge _ _)) by lra.
    rewrite !fmap_cons. cbn [segments].
    rewrite (proj2 (float_leb_le _ _)) by lra. ring.
  - assert (H0 : IZR (key a0) < IZR (key a)).
    { simpl in Hk. apply list_elem_of_lookup_2 in Hk.
      rewrite Forall_forall in Hall. apply IZR_lt, Hall.
      rewrite <- fmap_cons. apply list_elem_of_fmap. eauto. }
    rewrite (proj2 (float_ltb_ge _ _)) by lra.
    rewrite (segments_knot _ k (key a) (h a)); [done | done |].
    rewrite list_lookup_fmap. by rewrite Hk.
Qed.

(** Below every sample it returns the lower fill value, above every sample
    the upper one. *)
Lemma call_below {A : Type} (key : A -> Z) (h : A -> R) (rows : list A)
    (lo hi x : R) :
  Forall (fun a => x < IZR (key a)) rows ->
  call (Interp1d (key <$> rows) (h <$> rows) lo hi) x = lo.
Proof.
  intros Hall. unfold call. cbn [xs ys fill_lo fill_hi].
  destruct rows as [| a0 tl]; [done |]. rewrite fmap_cons.
  apply Forall_cons in Hall as [H0 _].
  by rewrite (proj2 (float_ltb_lt _ _)).
Qed.

Lemma call_above {A : Type} (key : A -> Z) (h : A -> R) (rows : list A)
    (lo hi x : R) :
  rows <> [] -> Forall (fun a => IZR (key a) < x) rows ->
  call (Interp1d (key <$> rows) (h <$> rows) lo hi) x = hi.
Proof.
  intros Hne Hall. unfold call. cbn [xs ys fill_lo fill_hi]. rewrite zip_fmap_same.
  destruct rows as [| a0 tl]; [done |]. rewrite (fmap_cons key).
  pose proof Hall as Hall'. apply Forall_cons in Hall' as [H0 _].
  rewrite (proj2 (float_ltb_ge _ _)) by lra.
  rewrite segments_beyond; [done |]. by rewrite Forall_fmap.
Qed.

(** *** Reading a freshly built cache *)

Lemma rows_of_keys (self : t) : (rows_of self).*1 = sorted_keys self.
Proof.
  unfold rows_of. induction (sorted_keys self) as [| f l IH]; [done |].
  csimpl. by rewrite IH.
Qed.

Lemma rows_of_length (self : t) : length (rows_of self) = size (data self).
Proof.
  unfold rows_of. rewrite length_fmap. apply sorted_keys_spec.
Qed.

Lemma rows_of_sorted (self : t) : StronglySorted Z.lt (rows_of self).*1.
Proof. rewrite rows_of_keys. apply sorted_keys_spec. Qed.

Lemma built_pair_eq (rows : list (Z * list complex)) (i : nat) :
  let re := fun it : Z * list complex => real (default (Complex 0 0) (it.2 !! i)) in
  let im := fun it : Z * list complex => imag (default (Complex 0 0) (it.2 !! i)) in
  built_pair rows i =
    (Interp1d rows.*1 (re <$> rows)
       (default 0 (head (re <$> rows))) (default 0 (last (re <$> rows))),
     Interp1d rows.*1 (im <$> rows)
       (default 0 (head (im <$> rows))) (default 0 (last (im <$> rows)))).
Proof. intros re im. unfold built_pair. by rewrite <- !list_fmap_compose. Qed.

Lemma read_rows (rows : list (Z * list complex)) (f : Z) (row : list complex) :
  (forall i z, row !! i = Some z ->
     call (built_pair rows i).1 (IZR f) = real z /\
     call (built_pair rows i).2 (IZR f) = imag z) ->
  read f (built_pair rows <$> seq 0 (length row)) = datapoint_of f <$> row.
Proof.
  intros H. apply list_eq. intros i. unfold read.
  rewrite !list_lookup_fmap.
  destruct (row !! i) as [z |] eqn:Hz.
  - rewrite lookup_seq_lt by (by eapply lookup_lt_Some).
    destruct (H i z Hz) as [H1 H2].
    transitivity (Some (Datapoint.mk f (call (built_pair rows i).1 (IZR f))
                                       (call (built_pair rows i).2 (IZR f))));
      [reflexivity |].
    by rewrite H1, H2.
  - rewrite lookup_seq_ge; [done |]. by apply lookup_ge_None.
Qed.

Lemma freq_fresh (self : t) (f : Z) :
  well_formed self -> data self <> ∅ -> interp self = [] -> inter_valid self = false ->
  freq f self =
    (Ok (read f (fresh_cache self)),
     mk (fields self) (data self) (fresh_cache self) true).
Proof.
  intros Hwf Hne Hi Hv. unfold freq, mbind, M_bind, get. rewrite Hv. simpl.
  rewrite gen_interpolation_ok by assumption. by rewrite Hi.
Qed.

Lemma sorted_head_min (l : list Z) (x y : Z) :
  StronglySorted Z.lt l -> head l = Some x -> y ∈ l -> (x <= y)%Z.
Proof.
  intros Hs Hh Hy. destruct l as [| x' l]; [done |]. injection Hh as ->.
  apply StronglySorted_inv in Hs as [_ Hall]. rewrite Forall_forall in Hall.
  apply elem_of_cons in Hy as [-> | Hy]; [lia |]. specialize (Hall _ Hy). lia.
Qed.

Lemma sorted_last_max (l : list Z) (x y : Z) :
  StronglySorted Z.lt l -> last l = Some x -> y ∈ l -> (y <= x)%Z.
Proof.
  intros Hs. revert x y. induction Hs as [| x' l Hs IH Hall]; intros x y Hl Hy; [done |].
  destruct l as [| x'' l].
  - injection Hl as ->. apply list_elem_of_singleton in Hy. lia.
  - rewrite last_cons_cons in Hl. rewrite Forall_forall in Hall.
    apply elem_of_cons in Hy as [-> | Hy].
    + specialize (Hall x (last_Some_elem_of _ _ Hl)). lia.
    + by apply IH.
Qed.

Lemma min_freq_spec (self : t) (lo : Z) :
  min_freq self = Return lo ->
  is_Some (data self !! lo) /\ forall f, is_Some (data self !! f) -> (lo <= f)%Z.
Proof.
  unfold min_freq. pose proof (elem_of_keys self) as Hk.
  destruct (keys self) as [| x l]; [done |]. simpl. intros [= <-].
  destruct (foldl_min_spec l x) as [Hin Hall]. split; [by apply Hk |].
  intros f Hf. apply Hk in Hf. rewrite Forall_forall in Hall. by apply Hall.
Qed.

Lemma max_freq_spec (self : t) (hi : Z) :
  max_freq self = Return hi ->
  is_Some (data self !! hi) /\ forall f, is_Some (data self !! f) -> (f <= hi)%Z.
Proof.
  unfold max_freq. pose proof (elem_of_keys self) as Hk.
  destruct (keys self) as [| x l]; [done |]. simpl. intros [= <-].
  destruct (foldl_max_spec l x) as [Hin Hall]. split; [by apply Hk |].
  intros f Hf. apply Hk in Hf. rewrite Forall_forall in Hall. by apply Hall.
Qed.

Lemma size_ge_2_nonempty (self : t) : (2 <= size (data self))%nat -> data self <> ∅.
Proof. intros Hsz He. rewrite He, map_size_empty in Hsz. lia. Qed.

Lemma read_fresh_at_sample (self : t) (f : Z) (row : list complex) :
  well_formed self -> (2 <= size (data self))%nat ->
  data self !! f = Some row ->
  read f (fresh_cache self) = datapoint_of f <$> row.
Proof.
  intros Hwf Hsz Hrow. unfold fresh_cache.
  rewrite <- (Hwf f row Hrow). apply read_rows. intros i z Hz.
  pose proof (proj2 (rows_of_lookup self f row) Hrow) as Hin.
  apply list_elem_of_lookup in Hin as [k Hk].
  pose proof (rows_of_sorted self) as Hs.
  pose proof (rows_of_length self) as Hlen.
  rewrite built_pair_eq. cbn [fst snd]. split.
  - rewrite (call_at_knot fst _ (rows_of self) _ _ k (f, row)); [| done | lia | done].
    simpl. by rewrite Hz.
  - rewrite (call_at_knot fst _ (rows_of self) _ _ k (f, row)); [| done | lia | done].
    simpl. by rewrite Hz.
Qed.

(** X21: on a well-formed DataSet with two entries or more whose cache is
    empty and not valid, a read at a stored frequency returns, per field,
    exactly the value stored there: the entry [items] yields for that
    frequency. *)
Theorem freq_at_sample (self : t) (f : Z) (row : list complex) :
  well_formed self -> (2 <= size (data self))%nat ->
  interp self = [] -> inter_valid self = false ->
  data self !! f = Some row ->
  (freq f self).1 = Ok (datapoint_of f <$> row).
Proof.
  intros Hwf Hsz Hi Hv Hrow.
  rewrite freq_fresh by (try assumption; by apply size_ge_2_nonempty).
  simpl. f_equal. by apply read_fresh_at_sample.
Qed.

Lemma freq_at_sample_witness :
  (freq 2 (insert (sample 2 3 4) (insert (sample 1 1 1) (init default_fields)).2).2).1
    = Ok (datapoint_of 2 <$> [Complex 3 0; Complex 0 4]).
Proof.
  apply freq_at_sample.
  - apply insert_well_formed, insert_well_formed.
    unfold well_formed. apply map_Forall_empty.
  - vm_compute. lia.
  - reflexivity.
  - reflexivity.
  - vm_compute. reflexivity.
Defined.

Lemma fmap_head {A B : Type} (f : A -> B) (l : list A) : head (f <$> l) = f <$> head l.
Proof. by destruct l. Qed.

Lemma rows_of_head (self : t) (lo : Z) (row : list complex) :
  (forall g, is_Some (data self !! g) -> (lo <= g)%Z) ->
  data self !! lo = Some row -> head (rows_of self) = Some (lo, row).
Proof.
  intros Hmin Hrow. unfold rows_of.
  destruct (sorted_keys_spec self) as (Hs & Hin & _).
  destruct (sorted_keys self) as [| k0 tl] eqn:Hkeys.
  - assert (H : lo ∈ @nil Z) by (apply Hin; eauto). by apply elem_of_nil in H.
  - simpl. assert (k0 = lo) as ->.
    { assert (k0 <= lo)%Z by (apply (sorted_head_min _ _ _ Hs); [done | apply Hin; eauto]).
      assert (lo <= k0)%Z by (apply Hmin, Hin; by left). lia. }
    by rewrite (lookup_total_correct _ _ _ Hrow).
Qed.

Lemma rows_of_last (self : t) (hi : Z) (row : list complex) :
  (forall g, is_Some (data self !! g) -> (g <= hi)%Z) ->
  data self !! hi = Some row -> last (rows_of self) = Some (hi, row).
Proof.
  intros Hmax Hrow. unfold rows_of. rewrite fmap_last.
  destruct (sorted_keys_spec self) as (Hs & Hin & _).
  destruct (last (sorted_keys self)) as [kl |] eqn:Hl.
  - simpl. assert (kl = hi) as ->.
    { assert (hi <= kl)%Z by (apply (sorted_last_max _ _ _ Hs Hl), Hin; eauto).
      assert (kl <= hi)%Z by (apply Hmax, Hin; by eapply last_Some_elem_of). lia. }
    by rewrite (lookup_total_correct _ _ _ Hrow).
  - apply last_None in Hl. assert (H : hi ∈ sorted_keys self) by (apply Hin; eauto).
    rewrite Hl in H. by apply elem_of_nil in H.
Qed.

(** X22: on a well-formed DataSet with two entries or more whose cache is
    empty and not valid, a read below [min_freq()] returns the values stored
    at [min_freq()], and a read above [max_freq()] the values stored at
    [max_freq()], under the frequency asked for. *)
Theorem freq_outside_range (self : t) (f lo hi : Z) (row_lo row_hi : list complex) :
  well_formed self -> (2 <= size (data self))%nat ->
  interp self = [] -> inter_valid self = false ->
  min_freq self = Return lo -> max_freq self = Return hi ->
  data self !! lo = Some row_lo -> data self !! hi = Some row_hi ->
  ((f < lo)%Z -> (freq f self).1 = Ok (datapoint_of f <$> row_lo)) /\
  ((hi < f)%Z -> (freq f self).1 = Ok (datapoint_of f <$> row_hi)).
Proof.
  intros Hwf Hsz Hi Hv Hmin Hmax Hlo Hhi.
  apply min_freq_spec in Hmin as [_ Hmin]. apply max_freq_spec in Hmax as [_ Hmax].
  pose proof (rows_of_head self lo row_lo Hmin Hlo) as Hhead.
  pose proof (rows_of_last self hi row_hi Hmax Hhi) as Hlast.
  assert (Hne : data self <> ∅) by (by apply size_ge_2_nonempty).
  rewrite freq_fresh by assumption. unfold fresh_cache. simpl.
  assert (Hkeys : forall a, a ∈ rows_of self -> is_Some (data self !! a.1)).
  { intros [g r] Hin. apply rows_of_lookup in Hin. simpl. eauto. }
  split; intros Hf; f_equal.
  - rewrite <- (Hwf lo row_lo Hlo). apply read_rows. intros i z Hz.
    rewrite built_pair_eq. cbn [fst snd].
    rewrite !call_below, !fmap_head, Hhead; [simpl; by rewrite Hz | |];
      apply Forall_forall; intros a Ha; apply IZR_lt;
      specialize (Hmin _ (Hkeys a Ha)); lia.
  - rewrite <- (Hwf hi row_hi Hhi). apply read_rows. intros i z Hz.
    assert (Hrows : rows_of self <> []) by (by rewrite rows_of_nil).
    rewrite built_pair_eq. cbn [fst snd].
    rewrite !call_above, !fmap_last, Hlast; [simpl; by rewrite Hz | done | | done |];
      apply Forall_forall; intros a Ha; apply IZR_lt;
      specialize (Hmax _ (Hkeys a Ha)); lia.
Qed.

Lemma freq_outside_range_witness :
  (freq 0 (insert (sample 2 3 4) (insert (sample 1 1 1) (init default_fields)).2).2).1
    = Ok (datapoint_of 0 <$> [Complex 1 0; Complex 0 1]) /\
  (freq 7 (insert (sample 2 3 4) (insert (sample 1 1 1) (init default_fields)).2).2).1
    = Ok (datapoint_of 7 <$> [Complex 3 0; Complex 0 4]).
Proof.
  assert (Hwf : well_formed
            (insert (sample 2 3 4) (insert (sample 1 1 1) (init default_fields)).2).2).
  { apply insert_well_formed, insert_well_formed.
    unfold well_formed. apply map_Forall_empty. }
  split.
  - refine (proj1 (freq_outside_range _ 0 1 2 _ _ Hwf _ _ _ _ _ _ _) _);
      first [lia | vm_compute; first [reflexivity | lia]].
  - refine (proj2 (freq_outside_range _ 7 1 2 _ _ Hwf _ _ _ _ _ _ _) _);
      first [lia | vm_compute; first [reflexivity | lia]].
Defined.

(** *** Reads on a cache built before *)

Lemma read_app (f : Z) (c1 c2 : list (interp1d * interp1d)) :
  read f (c1 ++ c2) = read f c1 ++ read f c2.
Proof. unfold read. apply fmap_app. Qed.

Lemma fresh_cache_length (self : t) : length (fresh_cache self) = length (fields self).
Proof. unfold fresh_cache. by rewrite length_fmap, length_seq. Qed.

(** X23: on a well-formed DataSet with two entries or more whose cache is
    not valid, a read keeps every pair of interpolators cached before and
    appends one pair per field: it returns the Datapoints of the old pairs
    first, then those of the new ones, [len(interp) + len(fields)] in
    all. *)
Theorem freq_rebuild_keeps_cache (self : t) (f : Z) :
  well_formed self -> (2 <= size (data self))%nat -> inter_valid self = false ->
  freq f self =
    (Ok (read f (interp self) ++ read f (fresh_cache self)),
     mk (fields self) (data self) (interp self ++ fresh_cache self) true) /\
  length (read f (interp self) ++ read f (fresh_cache self)) =
    (length (interp self) + length (fields self))%nat.
Proof.
  intros Hwf Hsz Hv. split.
  - unfold freq, mbind, M_bind, get. rewrite Hv. simpl.
    rewrite gen_interpolation_ok by (try assumption; by apply size_ge_2_nonempty).
    simpl. by rewrite <- read_app.
  - unfold read. by rewrite length_app, !length_fmap, fresh_cache_length.
Qed.

Lemma updated_after_read_reachable : reachable default_fields updated_after_read.
Proof.
  unfold updated_after_read.
  apply reach_insert, reach_freq, reach_insert, reach_insert, reach_init.
Qed.

Lemma freq_rebuild_keeps_cache_witness :
  freq 1 updated_after_read =
    (Ok (read 1 (interp updated_after_read) ++ read 1 (fresh_cache updated_after_read)),
     mk (fields updated_after_read) (data updated_after_read)
        (interp updated_after_read ++ fresh_cache updated_after_read) true) /\
  length (read 1 (interp updated_after_read) ++ read 1 (fresh_cache updated_after_read)) =
    (length (interp updated_after_read) + length (fields updated_after_read))%nat.
Proof.
  apply freq_rebuild_keeps_cache.
  - apply (reachable_well_formed default_fields), updated_after_read_reachable.
  - vm_compute. lia.
  - reflexivity.
Defined.

Lemma list_get_nat_None {A : Type} (l : list A) (i : nat) :
  l !! i = None -> list_get l (Z.of_nat i) = Raise IndexError.
Proof.
  intros Hi. apply lookup_ge_None in Hi. unfold list_get.
  destruct (Z.ltb_spec (Z.of_nat i) 0); [lia |].
  rewrite (proj2 (Z.ltb_ge _ _)) by lia. by rewrite andb_false_r.
Qed.

Lemma index_of_lookup (x : string) (l : list string) (i : nat) :
  index_of x l = Some i -> l !! i = Some x.
Proof.
  revert i. induction l as [| y l IH]; intros i; [done |]. simpl.
  destruct (String.eqb_spec y x) as [-> | Hne].
  - by intros [= <-].
  - destruct (index_of x l) as [j |]; [| done]. intros [= <-]. by apply IH.
Qed.

Lemma index_of_None (x : string) (l : list string) :
  index_of x l = None <-> x ∉ l.
Proof.
  induction l as [| y l IH]; simpl.
  - split; [intros _; apply not_elem_of_nil | done].
  - rewrite not_elem_of_cons. destruct (String.eqb_spec y x) as [-> | Hne].
    + split; [done | by intros [? _]].
    + destruct (index_of x l) as [j |]; simpl.
      * split; [done |]. intros [_ H]. by apply IH in H.
      * split; [| done]. intros _. split; [congruence | by apply IH].
Qed.

Lemma field_interp_lookup (field : string) (self : t) :
  field_interp field self =
    match index_of field (fields self) with
    | None => Fail ValueError
    | Some i =>
        match interp self !! i with
        | Some p => Return p
        | None => Fail (Exn IndexError)
        end
    end.
Proof.
  unfold field_interp. destruct (index_of field (fields self)) as [i |]; [| done].
  destruct (interp self !! i) as [p |] eqn:Hp.
  - by rewrite (list_get_nat _ _ _ Hp).
  - by rewrite (list_get_nat_None _ _ Hp).
Qed.

(** X24: [freq_field] and [freq_field_complex] answer from the pair that
    sits in [interp] at the position of the field when the call starts,
    whether the cache is valid or is rebuilt by the call: a rebuild appends
    behind it. *)
Theorem freq_field_reads_first_build (self : t) (f : Z) (field : string)
    (i : nat) (p : interp1d * interp1d) :
  index_of field (fields self) = Some i -> interp self !! i = Some p ->
  inter_valid self = true \/ (well_formed self /\ (2 <= size (data self))%nat) ->
  (freq_field f field self).1 =
    Return (Datapoint.mk f (call p.1 (IZR f)) (call p.2 (IZR f))) /\
  (freq_field_complex f field self).1 =
    Return (Complex (call p.1 (IZR f)) (call p.2 (IZR f))).
Proof.
  intros Hidx Hp Hcase.
  unfold freq_field, freq_field_complex, ensure_interpolation, mbind, M_bind, get.
  destruct (inter_valid self) eqn:Hv; simpl.
  - unfold mret, M_ret. by rewrite field_interp_lookup, Hidx, Hp.
  - destruct Hcase as [? | [Hwf Hsz]]; [done |].
    rewrite gen_interpolation_ok by (try assumption; by apply size_ge_2_nonempty).
    rewrite field_interp_lookup. cbn [fields interp]. rewrite Hidx.
    by rewrite (lookup_app_l_Some _ _ _ _ Hp).
Qed.

Lemma freq_field_reads_first_build_witness :
  exists p,
    interp updated_after_read !! 0%nat = Some p /\
    (freq_field 1 "11" updated_after_read).1 =
      Return (Datapoint.mk 1 (call p.1 (IZR 1)) (call p.2 (IZR 1))) /\
    (freq_field_complex 1 "11" updated_after_read).1 =
      Return (Complex (call p.1 (IZR 1)) (call p.2 (IZR 1))).
Proof.
  eexists. split; [vm_compute; reflexivity |].
  apply (freq_field_reads_first_build updated_after_read 1 "11" 0).
  - reflexivity.
  - vm_compute. reflexivity.
  - right. split.
    + apply (reachable_well_formed default_fields), updated_after_read_reachable.
    + vm_compute. lia.
Defined.

(** X25: the four read methods agree.  Where [freq] raises, the three
    others raise the same exception; where it returns a list, [freq_complex]
    returns the values of that list, and [freq_field] and
    [freq_field_complex] return its element at the position of the field,
    raise [ValueError] for a field that is none of [fields], and
    [IndexError] where the list is too short.  All four leave the object in
    the same state. *)
Theorem read_methods_agree (self : t) (f : Z) (field : string) :
  match freq f self with
  | (Ok l, self') =>
      freq_complex f self = (Ok (Datapoint.z <$> l), self') /\
      match index_of field (fields self) with
      | None =>
          freq_field f field self = (Fail ValueError, self') /\
          freq_field_complex f field self = (Fail ValueError, self')
      | Some i =>
          match l !! i with
          | Some dp =>
              freq_field f field self = (Return dp, self') /\
              freq_field_complex f field self = (Return (Datapoint.z dp), self')
          | None =>
              freq_field f field self = (Fail (Exn IndexError), self') /\
              freq_field_complex f field self = (Fail (Exn IndexError), self')
          end
      end
  | (Raise e, self') =>
      freq_complex f self = (Raise e, self') /\
      freq_field f field self = (Fail (Exn e), self') /\
      freq_field_complex f field self = (Fail (Exn e), self')
  end.
Proof.
  assert (Hstate : forall s : t,
    (fun i => Complex (call i.1 (IZR f)) (call i.2 (IZR f))) <$> interp s =
      Datapoint.z <$> read f (interp s) /\
    match index_of field (fields s) with
    | None => field_interp field s = Fail ValueError
    | Some i =>
        match read f (interp s) !! i with
        | Some dp =>
            exists p, field_interp field s = Return p /\
              dp = Datapoint.mk f (call p.1 (IZR f)) (call p.2 (IZR f))
        | None => field_interp field s = Fail (Exn IndexError)
        end
    end).
  { intros s. split.
    - unfold read. by rewrite <- list_fmap_compose.
    - rewrite field_interp_lookup. destruct (index_of field (fields s)) as [i |]; [| done].
      unfold read. rewrite list_lookup_fmap.
      destruct (interp s !! i) as [p |]; simpl; eauto. }
  unfold freq, freq_complex, freq_field, freq_field_complex, ensure_interpolation,
    mbind, M_bind, get.
  destruct (inter_valid self) eqn:Hv; cbn [negb].
  - unfold mret, M_ret. destruct (Hstate self) as [Hz Hfld].
    fold (read f (interp self)). split; [by rewrite Hz |].
    destruct (index_of field (fields self)) as [i |].
    + destruct (read f (interp self) !! i) as [dp |].
      * destruct Hfld as (p & -> & ->). done.
      * by rewrite Hfld.
    + by rewrite Hfld.
  - destruct (gen_interpolation_effect self) as [[Hf _] _].
    destruct (gen_interpolation self) as [[[] | e] self1]; cbn [fst snd] in *; [| done].
    unfold mret, M_ret. destruct (Hstate self1) as [Hz Hfld]. rewrite Hf in Hfld.
    fold (read f (interp self1)). split; [by rewrite Hz |].
    destruct (index_of field (fields self)) as [i |].
    + destruct (read f (interp self1) !! i) as [dp |].
      * destruct Hfld as (p & -> & ->). done.
      * by rewrite Hfld.
    + by rewrite Hfld.
Qed.

(** X26: whatever calls a DataSet went through, a read on a copy of it at
    a stored frequency returns exactly the values stored there, one
    Datapoint per field, given two entries or more: [copy] starts from an
    empty cache. *)
Theorem copy_read_exact (fs : list string) (self : t) (f : Z) (row : list complex) :
  reachable fs self -> (2 <= size (data self))%nat ->
  data self !! f = Some row ->
  (freq f (copy self)).1 = Ok (datapoint_of f <$> row) /\
  length (datapoint_of f <$> row) = length fs.
Proof.
  intros Hr Hsz Hrow. apply reachable_well_formed in Hr as [Hf Hwf]. split.
  - rewrite freq_fresh; [| done | by apply size_ge_2_nonempty | done | done].
    simpl. f_equal. by apply (read_fresh_at_sample (copy self)).
  - rewrite length_fmap, <- Hf. apply (Hwf f row Hrow).
Qed.

Lemma copy_read_exact_witness :
  (freq 1 (copy updated_after_read)).1
    = Ok (datapoint_of 1 <$> [Complex 2 0; Complex 0 2]) /\
  length (datapoint_of 1 <$> [Complex 2 0; Complex 0 2]) = length default_fields.
Proof.
  apply copy_read_exact.
  - apply updated_after_read_reachable.
  - vm_compute. lia.
  - vm_compute. reflexivity.
Defined.

(** *** A column of the stored entries *)

(** X27: [items_field] raises [ValueError] exactly for a field that is none
    of [fields]; for a field of a well-formed DataSet it yields, entry by
    entry, the Datapoint that [items] has at the position of the field. *)
Theorem items_field_column (self : t) (field : string) :
  (field ∉ fields self <-> items_field field self = Fail ValueError) /\
  (well_formed self -> field ∈ fields self ->
   exists i rows col,
     fields self !! i = Some field /\
     items self = Ok rows /\ items_field field self = Return col /\
     Forall2 (fun row dp => row !! i = Some dp) rows col).
Proof.
  unfold items_field. split.
  - rewrite <- index_of_None.
    destruct (index_of field (fields self)) as [i |]; [| done].
    split; [done |]. by destruct (traverse _ _).
  - intros Hwf Hin. destruct (index_of field (fields self)) as [i |] eqn:Hidx.
    2: { by apply index_of_None in Hidx. }
    pose proof (index_of_lookup _ _ _ Hidx) as Hi.
    exists i. eexists. eexists. split; [done |]. split; [apply items_rows |].
    rewrite (traverse_ok _
      (fun g => datapoint_of g (default (Complex 0 0) ((data self !!! g) !! i)))).
    + split; [reflexivity |]. apply Forall2_fmap, Forall_Forall2_diag, Forall_forall.
      intros g Hg. apply sorted_keys_spec in Hg as [v Hv].
      rewrite (lookup_total_correct _ _ _ Hv), list_lookup_fmap.
      destruct (lookup_lt_is_Some_2 v i) as [z ->]; [| done].
      rewrite (Hwf g v Hv). by eapply lookup_lt_Some.
    + intros g Hg. apply sorted_keys_spec in Hg as [v Hv].
      unfold dict_get. rewrite Hv, (lookup_total_correct _ _ _ Hv). simpl.
      destruct (lookup_lt_is_Some_2 v i) as [z Hz].
      { rewrite (Hwf g v Hv). by eapply lookup_lt_Some. }
      by rewrite (list_get_nat _ _ _ Hz), Hz.
Qed.

Lemma items_field_column_witness :
  exists i rows col,
    fields updated_after_read !! i = Some "21"%string /\
    items updated_after_read = Ok rows /\
    items_field "21" updated_after_read = Return col /\
    Forall2 (fun row dp => row !! i = Some dp) rows col.
Proof.
  apply (proj2 (items_field_column updated_after_read "21")).
  - apply (reachable_well_formed default_fields), updated_after_read_reachable.
  - right. left.
Defined.
End InterpolationFacts.
